(** * ems-flasher: the cartridge header validator and the block transfer engine

    A shallow embedding of [main.c]: [header_info], the space auto-detection
    and the read and write loops of [main], followed by the properties of the
    specification that were checked against them. *)

From Stdlib Require Import ZArith List Lia Bool Ascii String.
From Stdlib Require Import Init.Byte Strings.Byte.
Import ListNotations.

Local Open Scope Z_scope.

(** ** C integer types *)

Module CInt.

(** [uint8_t] *)
Definition to_uint8 (z : Z) : Z := z mod 2 ^ 8.

(** [uint32_t], [unsigned int] *)
Definition to_uint (z : Z) : Z := z mod 2 ^ 32.

(** [int]: two's complement on 32 bits *)
Definition to_int (z : Z) : Z :=
  let u := z mod 2 ^ 32 in
  if u <? 2 ^ 31 then u else u - 2 ^ 32.

(** [size_t] (64 bits) *)
Definition to_size_t (z : Z) : Z := z mod 2 ^ 64.

Definition INT_MAX : Z := 2 ^ 31 - 1.

End CInt.

Import CInt.

(** ** Bytes and buffers *)

(** The value of an [unsigned char]. *)
Definition byte_val (b : byte) : Z := Z.of_N (Byte.to_N b).

(** The [unsigned char] a C integer converts to. *)
Definition u8 (z : Z) : byte :=
  match Byte.of_N (Z.to_N (to_uint8 z)) with
  | Some b => b
  | None => x00
  end.

(** [buf[i]]: [None] stands for an access outside the object. *)
Fixpoint zth {A : Type} (l : list A) (i : Z) : option A :=
  match l with
  | [] => None
  | x :: l' => if i =? 0 then Some x else zth l' (i - 1)
  end.

(** [buf[i] = v], used to describe a mutated buffer. *)
Fixpoint zset {A : Type} (l : list A) (i : Z) (v : A) : list A :=
  match l with
  | [] => []
  | x :: l' => if i =? 0 then v :: l' else x :: zset l' (i - 1) v
  end.

Notation "x <- e ;; k" :=
  (match e with Some x => k | None => None end)
  (at level 61, e at next level, right associativity).

(** ** Constants of main.c *)

(** one bank is 32 megabits *)
Definition BANK_SIZE : Z := 0x400000.
Definition SRAM_SIZE : Z := 0x020000.

(** The address spaces of ems.h (which is not part of the sources): main.c
    stores them in [opts.space], where 0 means "not chosen", and indexes
    [limits] with them, which fixes FROM_ROM = 1 and FROM_SRAM = 2; it compares
    the same variable with TO_ROM and TO_SRAM in write mode. *)
Inductive space_t : Set :=
  | SPACE_UNSET
  | FROM_ROM
  | FROM_SRAM.

Definition TO_ROM : space_t := FROM_ROM.
Definition TO_SRAM : space_t := FROM_SRAM.

Definition space_eqb (a b : space_t) : bool :=
  match a, b with
  | SPACE_UNSET, SPACE_UNSET | FROM_ROM, FROM_ROM | FROM_SRAM, FROM_SRAM => true
  | _, _ => false
  end.

(** [const int limits[3] = {0, BANK_SIZE, SRAM_SIZE}] *)
Definition limits (space : space_t) : Z :=
  match space with
  | SPACE_UNSET => 0
  | FROM_ROM => BANK_SIZE
  | FROM_SRAM => SRAM_SIZE
  end.

Definition MODE_READ : Z := 1.
Definition MODE_WRITE : Z := 2.
Definition MODE_TITLE : Z := 3.

Definition nintylogo : list byte :=
  map u8
    [0xCE; 0xED; 0x66; 0x66; 0xCC; 0x0D; 0x00; 0x0B;
     0x03; 0x73; 0x00; 0x83; 0x00; 0x0C; 0x00; 0x0D;
     0x00; 0x08; 0x11; 0x1F; 0x88; 0x89; 0x00; 0x0E;
     0xDC; 0xCC; 0x6E; 0xE6; 0xDD; 0xDD; 0xD9; 0x99;
     0xBB; 0xBB; 0x67; 0x63; 0x6E; 0x0E; 0xEC; 0xCC;
     0xDD; 0xDC; 0x99; 0x9F; 0xBB; 0xB9; 0x33; 0x3E].

(** offsets to parts of the cart header *)
Definition HEADER_LOGO : Z := 0x104.
Definition HEADER_TITLE : Z := 0x134.
Definition HEADER_CGBFLAG : Z := 0x143.
Definition HEADER_SGBFLAG : Z := 0x146.
Definition HEADER_ROMSIZE : Z := 0x148.
Definition HEADER_RAMSIZE : Z := 0x149.
Definition HEADER_REGION : Z := 0x14A.
Definition HEADER_OLDLICENSEE : Z := 0x14B.
Definition HEADER_ROMVER : Z := 0x14C.
Definition HEADER_CHKSUM : Z := 0x14D.

Definition BLOCKSIZE_READ : Z := 4096.
Definition BLOCKSIZE_WRITE : Z := 32.

(** ** header_info *)

Module Header.

(** What [header_info] prints after "Nintendo logo: ". *)
Inductive logo_t : Set :=
  | LogoPass        (* "PASS" *)
  | LogoCgb         (* "FAIL, but will boot on CGB" *)
  | LogoFail.       (* "FAIL" *)

(** What it prints after "Hardware support: ". *)
Inductive hardware_t : Set :=
  | HwCGB | HwCGB_SGB | HwDMG_CGB_SGB | HwDMG_CGB | HwDMG_SGB | HwDMG.

(** What it prints after "Boot status: ". *)
Inductive boot_t : Set :=
  | BootNone        (* "This game will not boot on any system." *)
  | BootCgbOnly     (* "This game will only boot on CGB." *)
  | BootAny.        (* "This game will work on any system." *)

Record report : Set := mkReport {
  title_none : bool;          (* "NONE" was printed *)
  title : list byte;          (* the characters given to putchar *)
  logo_i : Z;                 (* i when the logo loop is left *)
  logo : logo_t;
  hardware : hardware_t;
  calculated_chk : Z;
  checksum_pass : bool;
  rom_kb : option Z;          (* None: "Unknown ROM size code" *)
  willboot : Z;
  boot : boot_t
}.

(** [for(i = HEADER_TITLE; i < (HEADER_TITLE + 16); i++)]: [n] iterations
    are left, [acc] is what was printed so far. *)
Fixpoint title_loop (n : nat) (i : Z) (acc : list byte) (buf : list byte)
  : option (list byte) :=
  match n with
  | O => Some acc
  | S n' =>
      b <- zth buf i ;;
      if byte_val b =? 0 then Some acc
      else title_loop n' (i + 1) (acc ++ [b]) buf
  end.

(** [for(i = 0; i < 0x30; ++i)]: the value of [i] after the loop. *)
Fixpoint logo_loop (n : nat) (i : Z) (buf : list byte) : option Z :=
  match n with
  | O => Some i
  | S n' =>
      c <- zth nintylogo i ;;
      b <- zth buf (HEADER_LOGO + i) ;;
      if negb (Byte.eqb c b) then Some i
      else logo_loop n' (i + 1) buf
  end.

(** The if chain after the logo loop: the message and the new [willboot]. *)
Definition logo_verdict (i : Z) (willboot : Z) : logo_t * Z :=
  if i =? 0x30 then (LogoPass, willboot)
  else if i >? 0x18 then (LogoCgb, 1)
  else (LogoFail, 0).

(** [a && b] where only [b] reads the buffer: [b] is not evaluated when
    [a] is false. *)
Definition and_then (a : bool) (b : option bool) : option bool :=
  if a then b else Some false.

Definition hardware_support (buf : list byte) : option hardware_t :=
  cgb <- zth buf HEADER_CGBFLAG ;;
  let cgb128 := negb (Z.land (byte_val cgb) 128 =? 0) in
  let cgb64 := negb (Z.land (byte_val cgb) 64 =? 0) in
  let sgb03 := (sgb <- zth buf HEADER_SGBFLAG ;; Some (byte_val sgb =? 0x03)) in
  if cgb128 && cgb64 then Some HwCGB else
  c <- and_then (cgb128 && cgb64) sgb03 ;;
  if c then Some HwCGB_SGB else
  c <- and_then cgb128 sgb03 ;;
  if c then Some HwDMG_CGB_SGB else
  if cgb128 then Some HwDMG_CGB else
  c <- sgb03 ;;
  if c then Some HwDMG_SGB else Some HwDMG.

(** [for (i = HEADER_TITLE; i <= HEADER_CHKSUM; ++i) calculated_chk += buf[i]] *)
Fixpoint chk_loop (n : nat) (i : Z) (calculated_chk : Z) (buf : list byte)
  : option Z :=
  match n with
  | O => Some calculated_chk
  | S n' =>
      b <- zth buf i ;;
      chk_loop n' (i + 1) (to_uint8 (calculated_chk + byte_val b)) buf
  end.

Definition checksum (buf : list byte) : option Z :=
  s <- chk_loop (Z.to_nat (HEADER_CHKSUM - HEADER_TITLE + 1)) HEADER_TITLE 0 buf ;;
  Some (to_uint8 (s + 25)).

(** [switch (buf[HEADER_ROMSIZE])]: the size printed, in KB. *)
Definition rom_size_kb (code : Z) : option Z :=
  if (0 <=? code) && (code <=? 7) then Some (Z.shiftl 32 code)
  else if code =? 0x52 then Some 1152
  else if code =? 0x53 then Some 1280
  else if code =? 0x54 then Some 1536
  else None.

Definition boot_status (willboot : Z) : boot_t :=
  if willboot =? 0 then BootNone
  else if willboot =? 1 then BootCgbOnly
  else BootAny.

Definition header_info (buf : list byte) : option report :=
  let willboot := 2 in
  t0 <- zth buf HEADER_TITLE ;;
  let none := byte_val t0 =? 0 in
  ttl <- title_loop 16 HEADER_TITLE [] buf ;;
  i <- logo_loop (Z.to_nat 0x30) 0 buf ;;
  let '(lg, willboot) := logo_verdict i willboot in
  hw <- hardware_support buf ;;
  chk <- checksum buf ;;
  let willboot := if negb (chk =? 0) then 0 else willboot in
  code <- zth buf HEADER_ROMSIZE ;;
  Some (mkReport none ttl i lg hw chk (chk =? 0)
          (rom_size_kb (byte_val code)) willboot (boot_status willboot)).

End Header.

(** ** The outside world of main *)

(** How a run, or a loop of it, ends. *)
Inductive outcome : Set :=
  | Completed       (* the loop is left by its condition; main returns 0 *)
  | Returned1       (* warnx(...); return 1; *)
  | Fatal           (* err(1, ...) and errx(1, ...) *)
  | Undefined       (* an access outside an object *)
  | OutOfFuel.      (* the bound on the iterations of the model was hit *)

(** The calls to the device, and the evaluation of the [switch] on the ROM
    size byte with the index it uses and the byte it finds there. *)
Inductive event : Type :=
  | EmsRead (from : space_t) (address count : Z)
  | EmsWrite (to : space_t) (address count : Z) (data : list byte)
  | RomSizeSwitch (index : Z) (code : option byte).

Record world : Type := mkWorld {
  ems_init_ok : bool;                     (* ems_init() >= 0 *)
  malloc_ok : bool;                       (* malloc(blocksize) != NULL *)
  cart : space_t -> Z -> byte;            (* the byte of the cart at an address *)
  read_error : space_t -> Z -> bool;      (* ems_read(...) < 0 at this address *)
  write_error : space_t -> Z -> bool;     (* ems_write(...) < 0 at this address *)
  fopen_w_ok : bool;                      (* fopen(opts.file, "w") != NULL *)
  fwrite_error : Z -> bool;               (* fwrite(...) != 1 at this offset *)
  input : option (list byte)              (* the file fopen(opts.file, "r") opens *)
}.

(** The [n] bytes of the cart from [address] on. *)
Fixpoint cart_block (w : world) (from : space_t) (address : Z) (n : nat)
  : list byte :=
  match n with
  | O => []
  | S n' => cart w from address :: cart_block w from (address + 1) n'
  end.

(** Modelled from the spec: ems_read of ems.c, which is not part of the
    sources: "readBlock(space, address, length) -> bytes | Error", blocking,
    atomic at the block granularity, an error rather than a partial result on
    failure. On success the buffer holds [count] bytes of the cart. *)
Definition ems_read (w : world) (from : space_t) (offset count : Z)
  : option (list byte) :=
  if read_error w from offset then None
  else Some (cart_block w from offset (Z.to_nat count)).

(** Modelled from the spec: ems_write of ems.c, which is not part of the
    sources: "writeBlock(space, address, bytes) -> Ok | Error". *)
Definition ems_write (w : world) (to : space_t) (offset : Z) (data : list byte)
  (count : Z) : bool :=
  negb (write_error w to offset).

(** ** Space auto-detection *)

(** [s[i]] for a C string [s] given by its characters: the terminating NUL
    is part of the object, nothing else beyond the characters is. *)
Fixpoint char_at (s : list ascii) (i : Z) : option ascii :=
  match s with
  | [] => if i =? 0 then Some zero else None
  | c :: s' => if i =? 0 then Some c else char_at s' (i - 1)
  end.

(** tolower of ctype.h in the C locale *)
Definition tolower (c : ascii) : ascii :=
  let n := N_of_ascii c in
  if (65 <=? n)%N && (n <=? 90)%N then ascii_of_N (n + 32) else c.

(** are the last four characters .sav ? *)
Definition detect_space (file : list ascii) : option space_t :=
  let namelen := to_size_t (Z.of_nat (List.length file)) in
  c4 <- char_at file (to_size_t (namelen - 4)) ;;
  if negb (Ascii.eqb c4 ".") then Some FROM_ROM else
  c3 <- char_at file (to_size_t (namelen - 3)) ;;
  if negb (Ascii.eqb (tolower c3) "s") then Some FROM_ROM else
  c2 <- char_at file (to_size_t (namelen - 2)) ;;
  if negb (Ascii.eqb (tolower c2) "a") then Some FROM_ROM else
  c1 <- char_at file (to_size_t (namelen - 1)) ;;
  if negb (Ascii.eqb (tolower c1) "v") then Some FROM_ROM else
  Some FROM_SRAM.

(** ** The read loop *)

Inductive step (S : Type) : Type :=
  | Next (s : S)
  | Stop (o : outcome) (s : S).
Arguments Next {S} s.
Arguments Stop {S} o s.

Module Read.

Record state : Type := mkState {
  offset : Z;               (* uint32_t offset *)
  readuntil : Z;            (* unsigned int readuntil *)
  untilset : Z;             (* int untilset *)
  saved : list byte;        (* what was written into save_file *)
  trace : list event
}.

Definition log (e : event) (s : state) : state :=
  mkState (offset s) (readuntil s) (untilset s) (saved s) (trace s ++ [e]).

(** The [switch] of the read loop: the new value of [readuntil]. *)
Definition narrow (code : Z) (readuntil : Z) : Z :=
  if (0 <=? code) && (code <=? 7) then to_uint (Z.shiftl 32 code * 1024)
  else if code =? 0x52 then 1152 * 1024
  else if code =? 0x53 then 1280 * 1024
  else if code =? 0x54 then 1536 * 1024
  else readuntil.

(** The condition of the [while]. *)
Definition cond (blocksize : Z) (s : state) : bool :=
  to_uint (to_int (to_uint (offset s + blocksize))) <=? readuntil s.

(** The body of the [while]. *)
Definition body (w : world) (space : space_t) (base blocksize : Z) (s : state)
  : step state :=
  let address := to_uint (offset s + base) in
  let s := log (EmsRead space address blocksize) s in
  match ems_read w space address blocksize with
  | None => Stop Returned1 s
  | Some buf =>
      if fwrite_error w (offset s) then Stop Fatal s else
      let offset' := to_uint (offset s + blocksize) in
      let s := mkState offset' (readuntil s) (untilset s) (saved s ++ buf) (trace s) in
      if (offset' >=? HEADER_ROMSIZE) && (untilset s =? 0)
         && space_eqb space FROM_ROM
      then
        let index := to_uint (HEADER_ROMSIZE - to_uint (offset' - blocksize)) in
        let s := log (RomSizeSwitch index (zth buf index)) s in
        match zth buf index with
        | None => Stop Undefined s
        | Some code =>
            Next (mkState offset' (narrow (byte_val code) (readuntil s)) 1
                    (saved s) (trace s))
        end
      else Next s
  end.

Fixpoint loop (fuel : nat) (w : world) (space : space_t) (base blocksize : Z)
  (s : state) : outcome * state :=
  match fuel with
  | O => (OutOfFuel, s)
  | S fuel' =>
      if cond blocksize s then
        match body w space base blocksize s with
        | Next s' => loop fuel' w space base blocksize s'
        | Stop o s' => (o, s')
        end
      else (Completed, s)
  end.

Definition init (space : space_t) : state :=
  mkState 0 (to_uint (limits space)) 0 [] [].

(** More iterations than blocks fit below the limit of the space. *)
Definition fuel (space : space_t) (blocksize : Z) : nat :=
  S (Z.to_nat (limits space / blocksize)).

(** The branch [opts.mode == MODE_READ] of main. *)
Definition session (w : world) (space : space_t) (base blocksize : Z)
  : outcome * state :=
  if negb (fopen_w_ok w) then (Fatal, init space)
  else loop (fuel space blocksize) w space base blocksize (init space).

End Read.

(** ** The write loop *)

Module Write.

Record state : Type := mkState {
  offset : Z;               (* uint32_t offset *)
  rest : list byte;         (* what is left to read of write_file *)
  trace : list event
}.

(** [fread(buf, blocksize, 1, write_file)]: the block when a whole one is
    left, and what is left of the file afterwards. *)
Definition fread (blocksize : Z) (rest : list byte)
  : option (list byte) * list byte :=
  if blocksize <=? Z.of_nat (List.length rest)
  then (Some (firstn (Z.to_nat blocksize) rest), skipn (Z.to_nat blocksize) rest)
  else (None, []).

Fixpoint loop (fuel : nat) (w : world) (space : space_t) (base blocksize : Z)
  (s : state) : outcome * state :=
  match fuel with
  | O => (OutOfFuel, s)
  | S fuel' =>
      if to_int (to_uint (offset s + blocksize)) <=? limits space then
        match fread blocksize (rest s) with
        | (Some buf, rest') =>
            let address := to_uint (offset s + base) in
            let tr := trace s ++ [EmsWrite space address blocksize buf] in
            if negb (ems_write w space address buf blocksize)
            then (Returned1, mkState (offset s) rest' tr)
            else loop fuel' w space base blocksize
                   (mkState (to_uint (offset s + blocksize)) rest' tr)
        | (None, rest') => (Completed, mkState (offset s) rest' (trace s))
        end
      else (Completed, s)
  end.

Definition init (file : list byte) : state := mkState 0 file [].

Definition fuel (space : space_t) (blocksize : Z) : nat :=
  S (Z.to_nat (limits space / blocksize)).

(** [int size = ftell(write_file)] after [fseek(write_file, 0L, SEEK_END)] *)
Definition file_size (file : list byte) : Z :=
  to_int (Z.of_nat (List.length file)).

(** The two size tests before the loop: [true] when [err] is called. *)
Definition too_large (size : Z) (space : space_t) : bool :=
  if (size >? 4 * 1024 * 1024) && space_eqb space TO_ROM then true
  else if (size >? 128 * 1024) && space_eqb space TO_SRAM then true
  else false.

(** The branch [opts.mode == MODE_WRITE] of main. *)
Definition session (w : world) (space : space_t) (base blocksize : Z)
  : outcome * state :=
  match input w with
  | None => (Fatal, init [])
  | Some file =>
      let size := file_size file in
      if too_large size space then (Fatal, init file)
      else loop (fuel space blocksize) w space base blocksize (init file)
  end.

End Write.

(** ** main *)

Record options_t : Type := mkOptions {
  verbose : Z;
  blocksize : Z;                (* int *)
  mode : Z;
  file : option string;         (* NULL: None *)
  bank : Z;
  space : space_t
}.

(** What get_options guarantees when it returns: one mode; a bank of 0 or 1;
    a block size that atoi produced and that is positive; in read and write
    mode a file name and a block size. *)
Definition get_options_post (opts : options_t) : Prop :=
  (mode opts = MODE_READ \/ mode opts = MODE_WRITE \/ mode opts = MODE_TITLE) /\
  (bank opts = 0 \/ bank opts = 1) /\
  0 <= blocksize opts <= INT_MAX /\
  (mode opts <> MODE_TITLE -> file opts <> None /\ 0 < blocksize opts).

(** What a run of main did. *)
Inductive session : Type :=
  | NoSession
  | ReadSession (s : Read.state)
  | WriteSession (s : Write.state)
  | TitleSession (bank0 bank1 : option Header.report).

(** determine what we're reading/writing from/to *)
Definition resolve_space (opts : options_t) : option space_t :=
  match space opts, file opts with
  | SPACE_UNSET, Some name => detect_space (list_ascii_of_string name)
  | sp, _ => Some sp
  end.

(** The branch [opts.mode == MODE_TITLE] of main. *)
Definition title_session (w : world) : outcome * session :=
  match ems_read w FROM_ROM 0 512 with
  | None => (Fatal, TitleSession None None)
  | Some buf0 =>
      match Header.header_info buf0 with
      | None => (Undefined, TitleSession None None)
      | Some r0 =>
          match ems_read w FROM_ROM BANK_SIZE 512 with
          | None => (Fatal, TitleSession (Some r0) None)
          | Some buf1 =>
              match Header.header_info buf1 with
              | None => (Undefined, TitleSession (Some r0) None)
              | Some r1 => (Completed, TitleSession (Some r0) (Some r1))
              end
          end
      end
  end.

Definition main (opts : options_t) (w : world) : outcome * session :=
  if negb (ems_init_ok w) then (Returned1, NoSession) else
  let blocksize := blocksize opts in
  let base := to_uint (bank opts * BANK_SIZE) in
  if negb (malloc_ok w) then (Fatal, NoSession) else
  match resolve_space opts with
  | None => (Undefined, NoSession)
  | Some space =>
      if mode opts =? MODE_READ then
        let '(o, s) := Read.session w space base blocksize in (o, ReadSession s)
      else if mode opts =? MODE_WRITE then
        let '(o, s) := Write.session w space base blocksize in (o, WriteSession s)
      else if mode opts =? MODE_TITLE then title_session w
      else (Fatal, NoSession)
  end.

(** ** The notions of the specification *)

Module Spec.

(** The bytes from the start of the title field through the header checksum
    field, both included. *)
Definition checksummed (buf : list byte) : list byte :=
  firstn (Z.to_nat (HEADER_CHKSUM - HEADER_TITLE + 1))
    (skipn (Z.to_nat HEADER_TITLE) buf).

Definition sum_bytes (l : list byte) : Z :=
  fold_right (fun b acc => byte_val b + acc) 0 l.

(** "sum every byte [...], add the constant 25": zero modulo 256. *)
Definition checksum_ok (buf : list byte) : Prop :=
  (sum_bytes (checksummed buf) + 25) mod 256 = 0.

(** Byte [j] of the logo field equals byte [j] of the reference pattern. *)
Definition logo_match (buf : list byte) (j : Z) : Prop :=
  zth buf (HEADER_LOGO + j) = zth nintylogo j.

(** [k] is the index of the first byte of the logo field that differs. *)
Definition first_mismatch (buf : list byte) (k : Z) : Prop :=
  0 <= k < 0x30 /\
  (forall j, 0 <= j < k -> logo_match buf j) /\
  ~ logo_match buf k.

(** The last four characters are ".sav", whatever their case. *)
Definition sav_suffix (file : list ascii) : Prop :=
  map tolower (skipn (List.length file - 4) file) = list_ascii_of_string ".sav".

(** A device call moves exactly one block. *)
Definition block_sized (blocksize : Z) (e : event) : Prop :=
  match e with
  | EmsRead _ _ count => count = blocksize
  | EmsWrite _ _ count data =>
      count = blocksize /\ Z.of_nat (List.length data) = blocksize
  | RomSizeSwitch _ _ => True
  end.

(** The evaluations of the ROM size [switch] in a trace, in order. *)
Fixpoint switches (tr : list event) : list (Z * option byte) :=
  match tr with
  | [] => []
  | RomSizeSwitch index code :: tr' => (index, code) :: switches tr'
  | _ :: tr' => switches tr'
  end.

(** The device reads of a trace. *)
Fixpoint reads (tr : list event) : list (space_t * Z * Z) :=
  match tr with
  | [] => []
  | EmsRead from address count :: tr' => (from, address, count) :: reads tr'
  | _ :: tr' => reads tr'
  end.

(** The device writes of a trace. *)
Fixpoint writes (tr : list event) : list (space_t * Z * Z) :=
  match tr with
  | [] => []
  | EmsWrite to address count _ :: tr' => (to, address, count) :: writes tr'
  | _ :: tr' => writes tr'
  end.

End Spec.

(** ** Sample inputs *)

Module Sample.

(** A cart that answers every call and holds [b] everywhere, files that can
    be written, and [f] as the file to write to the cart. *)
Definition world_of (b : byte) (f : option (list byte)) : world :=
  mkWorld true true (fun _ _ => b) (fun _ _ => false) (fun _ _ => false)
    true (fun _ => false) f.

Definition blank : world := world_of x00 None.

(** 512 zero bytes: no logo, no title. *)
Definition zero_header : list byte := repeat x00 512.

(** The reference logo at its place, zeros elsewhere, and the checksum byte
    that makes the sum vanish. *)
Definition good_header : list byte :=
  repeat x00 (Z.to_nat HEADER_LOGO) ++ nintylogo
    ++ repeat x00 (Z.to_nat (HEADER_CHKSUM - HEADER_TITLE))
    ++ [u8 (256 - 25)] ++ repeat x00 (Z.to_nat (512 - HEADER_CHKSUM - 1)).

(** As [good_header], with the last byte of the logo changed. *)
Definition cgb_header : list byte :=
  zset good_header (HEADER_LOGO + 0x2F) x00.

(** A save file of 128 KiB and one byte. *)
Definition big_save : list byte := repeat x00 (Z.to_nat (128 * 1024 + 1)).

(** A ROM file of one block of the default size for writing. *)
Definition small_rom : list byte := repeat xff (Z.to_nat BLOCKSIZE_WRITE).

End Sample.

(** ** Invariants of the two loops *)

Module Invariant.

(** What holds of the variables of the read loop at every evaluation of its
    condition and when it is left. *)
Record read_core (space : space_t) (blocksize : Z) (s : Read.state) : Prop :=
  mkReadCore {
    offset_range : 0 <= Read.offset s <= limits space;
    offset_blocks : (blocksize | Read.offset s);
    readuntil_range : 0 <= Read.readuntil s <= limits space;
    offset_bounded :
      blocksize <= Read.readuntil s -> Read.offset s <= Read.readuntil s;
    trace_blocks : Forall (Spec.block_sized blocksize) (Read.trace s)
  }.

(** The [switch] on the size byte was not evaluated yet. *)
Definition not_narrowed (space : space_t) (s : Read.state) : Prop :=
  Read.untilset s = 0 /\
  Spec.switches (Read.trace s) = [] /\
  Read.readuntil s = limits space.

(** The [switch] was evaluated once, on a byte of the block. *)
Definition narrowed (space : space_t) (blocksize : Z) (s : Read.state) : Prop :=
  Read.untilset s = 1 /\
  space = FROM_ROM /\
  exists index code,
    Spec.switches (Read.trace s) = [(index, Some code)] /\
    Read.readuntil s = Read.narrow (byte_val code) (limits space) /\
    0 < index < blocksize /\
    ~ (blocksize | HEADER_ROMSIZE).

(** The [switch] was evaluated once, on the byte after the block. *)
Definition overrun (space : space_t) (blocksize : Z) (s : Read.state) : Prop :=
  Read.untilset s = 0 /\
  space = FROM_ROM /\
  Spec.switches (Read.trace s) = [(blocksize, None)] /\
  Read.readuntil s = limits space /\
  (blocksize | HEADER_ROMSIZE).

Definition read_inv (space : space_t) (blocksize : Z) (s : Read.state) : Prop :=
  read_core space blocksize s /\
  (space = FROM_ROM -> Read.untilset s = 0 -> Read.offset s < HEADER_ROMSIZE) /\
  (not_narrowed space s \/ narrowed space blocksize s).

Definition read_post (space : space_t) (blocksize : Z) (o : outcome)
  (s : Read.state) : Prop :=
  read_core space blocksize s /\
  o <> OutOfFuel /\
  (o = Completed -> Read.cond blocksize s = false) /\
  match o with
  | Undefined => overrun space blocksize s
  | _ => not_narrowed space s \/ narrowed space blocksize s
  end.

Definition write_inv (space : space_t) (blocksize : Z) (s : Write.state) : Prop :=
  0 <= Write.offset s <= limits space /\
  (blocksize | Write.offset s) /\
  Forall (Spec.block_sized blocksize) (Write.trace s).

End Invariant.

(** ** get_options *)

Module GetOpt.

(** What [getopt_long] returns for one option of the command line: the
    character [c], and for the options with an argument the int that
    [atoi(optarg)] gives. *)
Inductive opt : Set :=
  | Opt_h | Opt_V | Opt_v | Opt_r | Opt_w | Opt_t
  | Opt_s (optval : Z)
  | Opt_b (optval : Z)
  | Opt_S | Opt_R
  | Opt_other.          (* '?': the default case *)

(** How get_options ends: it returns with [opts] filled in, or the process
    exits ([usage] exits with 1, --version with 0). *)
Inductive result : Type :=
  | Parsed (opts : options_t)
  | Exit (code : Z).

(** defaults *)
Definition defaults : options_t := mkOptions 0 0 0 None 0 SPACE_UNSET.

Definition set_verbose (o : options_t) (v : Z) : options_t :=
  mkOptions v (blocksize o) (mode o) (file o) (bank o) (space o).
Definition set_blocksize (o : options_t) (v : Z) : options_t :=
  mkOptions (verbose o) v (mode o) (file o) (bank o) (space o).
Definition set_mode (o : options_t) (v : Z) : options_t :=
  mkOptions (verbose o) (blocksize o) v (file o) (bank o) (space o).
Definition set_file (o : options_t) (v : option string) : options_t :=
  mkOptions (verbose o) (blocksize o) (mode o) v (bank o) (space o).
Definition set_bank (o : options_t) (v : Z) : options_t :=
  mkOptions (verbose o) (blocksize o) (mode o) (file o) v (space o).
Definition set_space (o : options_t) (v : space_t) : options_t :=
  mkOptions (verbose o) (blocksize o) (mode o) (file o) (bank o) v.

(** The [while (1)] loop over the options, [opts] being the global. *)
Fixpoint option_loop (args : list opt) (opts : options_t) : result :=
  match args with
  | [] => Parsed opts                       (* c == -1 *)
  | c :: args' =>
      match c with
      | Opt_h => Exit 1
      | Opt_V => Exit 0
      | Opt_v => option_loop args' (set_verbose opts 1)
      | Opt_r =>
          if negb (mode opts =? 0) then Exit 1
          else option_loop args' (set_mode opts MODE_READ)
      | Opt_w =>
          if negb (mode opts =? 0) then Exit 1
          else option_loop args' (set_mode opts MODE_WRITE)
      | Opt_t =>
          if negb (mode opts =? 0) then Exit 1
          else option_loop args' (set_mode opts MODE_TITLE)
      | Opt_s optval =>
          if optval <=? 0 then Exit 1
          else option_loop args' (set_blocksize opts optval)
      | Opt_b optval =>
          if (optval <? 1) || (optval >? 2) then Exit 1
          else option_loop args' (set_bank opts (optval - 1))
      | Opt_S =>
          if negb (space_eqb (space opts) SPACE_UNSET) then Exit 1
          else option_loop args' (set_space opts FROM_SRAM)
      | Opt_R =>
          if negb (space_eqb (space opts) SPACE_UNSET) then Exit 1
          else option_loop args' (set_space opts FROM_ROM)
      | Opt_other => Exit 1
      end
  end.

(** get_options on a command line whose options are [args] and whose other
    arguments, [argv[optind]] and what follows, are [rest]. *)
Definition get_options (args : list opt) (rest : list string) : result :=
  match option_loop args defaults with
  | Exit code => Exit code
  | Parsed opts =>
      if mode opts =? 0 then Exit 1
      else if (mode opts =? MODE_WRITE) || (mode opts =? MODE_READ) then
        match rest with
        | [] => Exit 1
        | name :: _ =>
            let opts := set_file opts (Some name) in
            if blocksize opts =? 0
            then Parsed (set_blocksize opts
                           (if mode opts =? MODE_READ then BLOCKSIZE_READ
                            else BLOCKSIZE_WRITE))
            else Parsed opts
        end
      else Parsed opts
  end.

End GetOpt.

(** ** More notions for the properties *)

Module Facts.

(** The modes among the options, in order. *)
Fixpoint modes (args : list GetOpt.opt) : list Z :=
  match args with
  | [] => []
  | GetOpt.Opt_r :: args' => MODE_READ :: modes args'
  | GetOpt.Opt_w :: args' => MODE_WRITE :: modes args'
  | GetOpt.Opt_t :: args' => MODE_TITLE :: modes args'
  | _ :: args' => modes args'
  end.

(** The forced spaces among the options, in order. *)
Fixpoint spaces (args : list GetOpt.opt) : list space_t :=
  match args with
  | [] => []
  | GetOpt.Opt_S :: args' => FROM_SRAM :: spaces args'
  | GetOpt.Opt_R :: args' => FROM_ROM :: spaces args'
  | _ :: args' => spaces args'
  end.

(** The block sizes among the options, in order. *)
Fixpoint blocksizes (args : list GetOpt.opt) : list Z :=
  match args with
  | [] => []
  | GetOpt.Opt_s v :: args' => v :: blocksizes args'
  | _ :: args' => blocksizes args'
  end.

(** The banks among the options, in order. *)
Fixpoint banks (args : list GetOpt.opt) : list Z :=
  match args with
  | [] => []
  | GetOpt.Opt_b v :: args' => v :: banks args'
  | _ :: args' => banks args'
  end.

(** An option that does not end the process by itself. *)
Definition accepted (c : GetOpt.opt) : Prop :=
  match c with
  | GetOpt.Opt_h | GetOpt.Opt_V | GetOpt.Opt_other => False
  | GetOpt.Opt_s v => 0 < v
  | GetOpt.Opt_b v => 1 <= v <= 2
  | _ => True
  end.

(** The value [atoi] gave fits an int. *)
Definition int_arg (c : GetOpt.opt) : Prop :=
  match c with
  | GetOpt.Opt_s v | GetOpt.Opt_b v => v <= INT_MAX
  | _ => True
  end.

(** The bytes of a field up to its first zero byte. *)
Fixpoint until_nul (l : list byte) : list byte :=
  match l with
  | [] => []
  | b :: l' => if byte_val b =? 0 then [] else b :: until_nul l'
  end.

(** The device calls that move [n] consecutive blocks from [base] on. *)
Definition block_calls (space : space_t) (base blocksize : Z) (n : nat)
  : list (space_t * Z * Z) :=
  map (fun k => (space, base + Z.of_nat k * blocksize, blocksize)) (seq 0 n).

(** The bytes given to the device by the writes of a trace, in order. *)
Fixpoint written (tr : list event) : list byte :=
  match tr with
  | [] => []
  | EmsWrite _ _ _ data :: tr' => data ++ written tr'
  | _ :: tr' => written tr'
  end.

End Facts.

(** ** What the sessions move *)

Module Data.

(** The reads so far are the first [k] blocks of the space, one after the
    other, and the file holds what they returned. *)
Definition read_data (w : world) (space : space_t) (base blocksize : Z)
  (k : nat) (s : Read.state) : Prop :=
  Read.offset s = Z.of_nat k * blocksize /\
  Spec.reads (Read.trace s) = Facts.block_calls space base blocksize k /\
  Read.saved s = cart_block w space base (Z.to_nat (Read.offset s)).

(** The same when the loop was left: a read that failed, or whose block
    could not be saved, is the last call, at the offset that is reported. *)
Definition read_data_post (w : world) (space : space_t) (base blocksize : Z)
  (o : outcome) (s : Read.state) : Prop :=
  exists k : nat,
    Read.offset s = Z.of_nat k * blocksize /\
    Read.saved s = cart_block w space base (Z.to_nat (Read.offset s)) /\
    match o with
    | Completed | Undefined =>
        Spec.reads (Read.trace s) = Facts.block_calls space base blocksize k
    | Returned1 =>
        Spec.reads (Read.trace s) = Facts.block_calls space base blocksize (S k) /\
        Read.offset s + blocksize <= limits space /\
        read_error w space (base + Read.offset s) = true
    | Fatal =>
        Spec.reads (Read.trace s) = Facts.block_calls space base blocksize (S k) /\
        Read.offset s + blocksize <= limits space /\
        read_error w space (base + Read.offset s) = false /\
        fwrite_error w (Read.offset s) = true
    | OutOfFuel => False
    end.

(** The writes so far are the first [k] blocks of the space, they carried
    the first bytes of the file, and the rest of the file is still to read. *)
Definition write_data (file : list byte) (space : space_t) (base blocksize : Z)
  (k : nat) (s : Write.state) : Prop :=
  Write.offset s = Z.of_nat k * blocksize /\
  Write.offset s <= Z.of_nat (List.length file) /\
  Spec.writes (Write.trace s) = Facts.block_calls space base blocksize k /\
  Facts.written (Write.trace s) = firstn (Z.to_nat (Write.offset s)) file /\
  Write.rest s = skipn (Z.to_nat (Write.offset s)) file.

(** The same when the loop was left: every whole block of the file that
    fits the space was written, or the last write failed. *)
Definition write_data_post (w : world) (file : list byte) (space : space_t)
  (base blocksize : Z) (o : outcome) (s : Write.state) : Prop :=
  exists k : nat,
    Write.offset s = Z.of_nat k * blocksize /\
    match o with
    | Completed =>
        Spec.writes (Write.trace s) = Facts.block_calls space base blocksize k /\
        Facts.written (Write.trace s) = firstn (Z.to_nat (Write.offset s)) file /\
        Write.offset s
        = blocksize
          * (Z.min (Z.of_nat (List.length file)) (limits space) / blocksize)
    | Returned1 =>
        Spec.writes (Write.trace s)
        = Facts.block_calls space base blocksize (S k) /\
        Facts.written (Write.trace s)
        = firstn (Z.to_nat (Write.offset s + blocksize)) file /\
        Write.offset s + blocksize
        <= Z.min (Z.of_nat (List.length file)) (limits space) /\
        write_error w space (base + Write.offset s) = true
    | _ => False
    end.

End Data.

(** * Properties *)

(** ** Buffers and bytes *)

Section Buffers.

Context {A : Type}.

Lemma zth_range (l : list A) (i : Z) (x : A) :
  zth l i = Some x -> 0 <= i < Z.of_nat (List.length l).
Proof.
  revert i; induction l as [|a l IH]; simpl; intros i H; [discriminate|].
  destruct (Z.eqb_spec i 0) as [E|Hi]; [lia|].
  apply IH in H; lia.
Qed.

Lemma zth_defined (l : list A) (i : Z) :
  0 <= i < Z.of_nat (List.length l) -> exists x, zth l i = Some x.
Proof.
  revert i; induction l as [|a l IH]; simpl; intros i H; [lia|].
  destruct (Z.eqb_spec i 0) as [E|Hi]; [now exists a|].
  apply IH; lia.
Qed.

Lemma zth_outside (l : list A) (i : Z) :
  i < 0 \/ Z.of_nat (List.length l) <= i -> zth l i = None.
Proof.
  intros H; destruct (zth l i) as [x|] eqn:E; [|reflexivity].
  apply zth_range in E; lia.
Qed.

Lemma zth_skipn (l : list A) (i : Z) (x : A) :
  zth l i = Some x ->
  skipn (Z.to_nat i) l = x :: skipn (Z.to_nat (i + 1)) l.
Proof.
  revert i; induction l as [|a l IH]; simpl; intros i H; [discriminate|].
  destruct (Z.eqb_spec i 0) as [E|Hi].
  - subst i. injection H as E. now subst a.
  - pose proof (zth_range _ _ _ H) as R.
    replace (Z.to_nat i) with (S (Z.to_nat (i - 1))) by lia.
    replace (Z.to_nat (i + 1)) with (S (Z.to_nat (i - 1 + 1))) by lia.
    simpl. now apply IH.
Qed.

Lemma zset_length (l : list A) (i : Z) (v : A) :
  List.length (zset l i v) = List.length l.
Proof.
  revert i; induction l as [|a l IH]; simpl; intros i; [reflexivity|].
  destruct (i =? 0); simpl; [reflexivity|now rewrite IH].
Qed.

Lemma zth_zset_same (l : list A) (i : Z) (v : A) :
  0 <= i < Z.of_nat (List.length l) -> zth (zset l i v) i = Some v.
Proof.
  revert i; induction l as [|a l IH]; simpl; intros i H; [lia|].
  destruct (Z.eqb_spec i 0) as [E|Hi]; simpl.
  - subst i. reflexivity.
  - destruct (Z.eqb_spec i 0); [lia|]. apply IH; lia.
Qed.

Lemma zth_zset_other (l : list A) (i j : Z) (v : A) :
  i <> j -> zth (zset l i v) j = zth l j.
Proof.
  revert i j; induction l as [|a l IH]; simpl; intros i j H; [reflexivity|].
  destruct (Z.eqb_spec i 0) as [E|Hi]; simpl.
  - destruct (Z.eqb_spec j 0); [lia|reflexivity].
  - destruct (Z.eqb_spec j 0); [reflexivity|]. apply IH; lia.
Qed.

End Buffers.

Lemma byte_val_range (b : byte) : 0 <= byte_val b < 256.
Proof.
  unfold byte_val. pose proof (Byte.to_N_bounded b). lia.
Qed.

Lemma byte_val_inj (a b : byte) : byte_val a = byte_val b -> a = b.
Proof.
  unfold byte_val; intros H. apply N2Z.inj in H.
  pose proof (Byte.of_to_N a) as Ha. rewrite H, Byte.of_to_N in Ha.
  now injection Ha.
Qed.

Lemma nintylogo_length : Z.of_nat (List.length nintylogo) = 0x30.
Proof. reflexivity. Qed.

Section Slices.

Context {A : Type}.

Lemma zth_skipn_shift (k : nat) (l : list A) (j : Z) :
  0 <= j -> zth (skipn k l) j = zth l (j + Z.of_nat k).
Proof.
  revert l j; induction k as [|k IH]; intros l j Hj.
  - simpl. now rewrite Z.add_0_r.
  - destruct l as [|a l]; simpl skipn.
    + reflexivity.
    + rewrite IH by assumption. cbn [zth].
      destruct (Z.eqb_spec (j + Z.of_nat (S k)) 0); [lia|].
      f_equal; lia.
Qed.

Lemma zth_firstn (n : nat) (l : list A) (j : Z) :
  j < Z.of_nat n -> zth (firstn n l) j = zth l j.
Proof.
  revert l j; induction n as [|n IH]; intros l j Hj.
  - simpl. symmetry. destruct l; [reflexivity|].
    destruct (zth (a :: l) j) eqn:E; [|reflexivity].
    apply zth_range in E; lia.
  - destruct l as [|a l]; [reflexivity|]. cbn [firstn zth].
    destruct (j =? 0); [reflexivity|]. apply IH; lia.
Qed.

Lemma skipn_zset (k : nat) (l : list A) (off : Z) (v : A) :
  Z.of_nat k <= off ->
  skipn k (zset l off v) = zset (skipn k l) (off - Z.of_nat k) v.
Proof.
  revert l off; induction k as [|k IH]; intros l off H.
  - simpl. now rewrite Z.sub_0_r.
  - destruct l as [|a l]; [reflexivity|]. cbn [zset].
    destruct (Z.eqb_spec off 0); [lia|]. cbn [skipn].
    rewrite IH by lia. f_equal; lia.
Qed.

Lemma firstn_zset (n : nat) (l : list A) (j : Z) (v : A) :
  0 <= j < Z.of_nat n ->
  firstn n (zset l j v) = zset (firstn n l) j v.
Proof.
  revert l j; induction n as [|n IH]; intros l j H; [lia|].
  destruct l as [|a l]; [reflexivity|]. cbn [zset firstn].
  destruct (Z.eqb_spec j 0); cbn [firstn]; [reflexivity|].
  rewrite IH by lia. reflexivity.
Qed.

End Slices.

Lemma sum_bytes_zset (l : list byte) (j : Z) (old v : byte) :
  zth l j = Some old ->
  Spec.sum_bytes (zset l j v) = Spec.sum_bytes l - byte_val old + byte_val v.
Proof.
  revert j; induction l as [|a l IH]; simpl; intros j H; [discriminate|].
  destruct (j =? 0); simpl.
  - injection H as E; subst a. lia.
  - rewrite (IH _ H). lia.
Qed.

(** ** header_info *)

Lemma title_loop_defined (n : nat) (i : Z) (acc buf : list byte) :
  0 <= i -> i + Z.of_nat n <= Z.of_nat (List.length buf) ->
  exists t, Header.title_loop n i acc buf = Some t.
Proof.
  revert i acc; induction n as [|n IH]; intros i acc Hi Hn; simpl.
  - now exists acc.
  - destruct (zth_defined buf i) as [b Hb]; [lia|]. rewrite Hb.
    destruct (byte_val b =? 0); [now exists acc|]. apply IH; lia.
Qed.

Lemma logo_loop_spec (n : nat) (i : Z) (buf : list byte) :
  0 <= i -> i + Z.of_nat n = 0x30 ->
  HEADER_LOGO + 0x30 <= Z.of_nat (List.length buf) ->
  exists r, Header.logo_loop n i buf = Some r /\ i <= r <= 0x30 /\
    (forall j, i <= j < r -> Spec.logo_match buf j) /\
    (r < 0x30 -> ~ Spec.logo_match buf r).
Proof.
  revert i; induction n as [|n IH]; intros i Hi Hn Hlen.
  - exists i. simpl. repeat split; try (intros; lia).
  - destruct (zth_defined nintylogo i) as [c Hc];
      [rewrite nintylogo_length; lia|].
    destruct (zth_defined buf (HEADER_LOGO + i)) as [b Hb];
      [unfold HEADER_LOGO in *; lia|].
    cbn [Header.logo_loop]. rewrite Hc, Hb.
    destruct (Byte.eqb c b) eqn:E; cbn [negb].
    + apply Byte.byte_dec_bl in E. subst b.
      destruct (IH (i + 1)) as (r & Hr & Hrange & Hm & Hd); [lia|lia|assumption|].
      exists r. repeat split; try assumption; try lia.
      intros j Hj. destruct (Z.eq_dec j i) as [->|Hne].
      * unfold Spec.logo_match. congruence.
      * apply Hm; lia.
    + apply Byte.eqb_false in E.
      exists i. repeat split; try (intros; lia).
      intros _. unfold Spec.logo_match. rewrite Hc, Hb. congruence.
Qed.

Lemma hardware_support_defined (buf : list byte) :
  HEADER_SGBFLAG < Z.of_nat (List.length buf) ->
  exists hw, Header.hardware_support buf = Some hw.
Proof.
  intros H. unfold Header.hardware_support, Header.and_then.
  destruct (zth_defined buf HEADER_CGBFLAG) as [cgb Hcgb];
    [unfold HEADER_CGBFLAG, HEADER_SGBFLAG in *; lia|].
  destruct (zth_defined buf HEADER_SGBFLAG) as [sgb Hsgb];
    [unfold HEADER_SGBFLAG in *; lia|].
  rewrite Hcgb, Hsgb.
  destruct (negb (Z.land (byte_val cgb) 128 =? 0));
    destruct (negb (Z.land (byte_val cgb) 64 =? 0));
    destruct (byte_val sgb =? 3); simpl; eauto.
Qed.

Lemma chk_loop_sum (n : nat) (i acc : Z) (buf : list byte) :
  0 <= i -> i + Z.of_nat n <= Z.of_nat (List.length buf) ->
  0 <= acc < 256 ->
  Header.chk_loop n i acc buf
  = Some ((acc + Spec.sum_bytes (firstn n (skipn (Z.to_nat i) buf))) mod 256).
Proof.
  revert i acc; induction n as [|n IH]; intros i acc Hi Hn Hacc.
  - simpl. rewrite Z.add_0_r, Z.mod_small by lia. reflexivity.
  - destruct (zth_defined buf i) as [b Hb]; [lia|].
    cbn [Header.chk_loop]. rewrite Hb.
    rewrite (zth_skipn _ _ _ Hb). cbn [firstn].
    rewrite IH; try lia.
    + unfold to_uint8. change (2 ^ 8) with 256.
      rewrite Z.add_mod_idemp_l by lia.
      unfold Spec.sum_bytes at 2. cbn [fold_right].
      fold (Spec.sum_bytes (firstn n (skipn (Z.to_nat (i + 1)) buf))).
      f_equal. f_equal. lia.
    + unfold to_uint8. change (2 ^ 8) with 256.
      apply Z.mod_pos_bound; lia.
Qed.

Lemma checksum_spec (buf : list byte) :
  HEADER_CHKSUM < Z.of_nat (List.length buf) ->
  Header.checksum buf
  = Some ((Spec.sum_bytes (Spec.checksummed buf) + 25) mod 256).
Proof.
  intros H. unfold Header.checksum.
  rewrite chk_loop_sum; try (unfold HEADER_CHKSUM, HEADER_TITLE in *; lia).
  unfold to_uint8. change (2 ^ 8) with 256.
  rewrite Z.add_0_l, Z.add_mod_idemp_l by lia. reflexivity.
Qed.

(** What [header_info] reports in terms of its two loops. *)
Lemma header_info_spec (buf : list byte) :
  HEADER_CHKSUM < Z.of_nat (List.length buf) ->
  exists r i chk,
    Header.header_info buf = Some r /\
    Header.logo_loop (Z.to_nat 0x30) 0 buf = Some i /\
    Header.checksum buf = Some chk /\
    Header.logo_i r = i /\
    Header.logo r = fst (Header.logo_verdict i 2) /\
    Header.calculated_chk r = chk /\
    Header.checksum_pass r = (chk =? 0) /\
    Header.willboot r
    = (if negb (chk =? 0) then 0 else snd (Header.logo_verdict i 2)) /\
    Header.boot r = Header.boot_status (Header.willboot r).
Proof.
  intros H. unfold HEADER_CHKSUM in H.
  destruct (zth_defined buf HEADER_TITLE) as [t0 Ht0];
    [unfold HEADER_TITLE; lia|].
  destruct (title_loop_defined 16 HEADER_TITLE [] buf) as [ttl Httl];
    [unfold HEADER_TITLE; lia|unfold HEADER_TITLE; lia|].
  destruct (logo_loop_spec (Z.to_nat 0x30) 0 buf) as (i & Hi & _);
    [lia|reflexivity|unfold HEADER_LOGO; lia|].
  destruct (hardware_support_defined buf) as [hw Hhw];
    [unfold HEADER_SGBFLAG; lia|].
  pose proof (checksum_spec buf) as Hchk.
  destruct (Header.checksum buf) as [chk|] eqn:Echk;
    [|discriminate Hchk; unfold HEADER_CHKSUM; lia].
  destruct (zth_defined buf HEADER_ROMSIZE) as [code Hcode];
    [unfold HEADER_ROMSIZE; lia|].
  unfold Header.header_info.
  rewrite Ht0, Httl, Hi.
  destruct (Header.logo_verdict i 2) as [lg wb] eqn:Ev.
  rewrite Hhw, Echk, Hcode.
  eexists; exists i, chk. rewrite Ev. repeat split; reflexivity.
Qed.

(** C5: on a buffer of at least 0x14E bytes [header_info] reports a passing
    checksum exactly when the bytes from offset 0x134 to offset 0x14D, both
    included, and the constant 25 add up to 0 modulo 256. *)
Theorem checksum_ok_iff (buf : list byte) :
  0x14E <= Z.of_nat (List.length buf) ->
  exists r, Header.header_info buf = Some r /\
    (Header.checksum_pass r = true <-> Spec.checksum_ok buf).
Proof.
  intros H.
  destruct (header_info_spec buf) as (r & i & chk & Hr & _ & Hchk & _ & _ & _ & Hp & _);
    [unfold HEADER_CHKSUM; lia|].
  exists r. split; [assumption|].
  rewrite checksum_spec in Hchk by (unfold HEADER_CHKSUM; lia).
  injection Hchk as Hchk. rewrite Hp, Z.eqb_eq, <- Hchk.
  unfold Spec.checksum_ok. reflexivity.
Qed.

Lemma checksum_ok_iff_witness :
  0x14E <= Z.of_nat (List.length Sample.good_header) /\
  exists r, Header.header_info Sample.good_header = Some r /\
    (Header.checksum_pass r = true <-> Spec.checksum_ok Sample.good_header).
Proof.
  split.
  - vm_compute; intro; discriminate.
  - apply (checksum_ok_iff Sample.good_header). vm_compute; intro; discriminate.
Defined.

(** C6: the logo loop stops at the first byte of the logo field that differs
    from the reference pattern; the logo passes when no byte differs, it is
    "FAIL, but will boot on CGB" when the first difference is at an index k
    with 0x18 < k < 0x30, and "FAIL" when it is at an index k <= 0x18. *)
Theorem logo_tier (buf : list byte) :
  0x14E <= Z.of_nat (List.length buf) ->
  exists r, Header.header_info buf = Some r /\
    (forall k, Spec.first_mismatch buf k -> Header.logo_i r = k) /\
    (Header.logo r = Header.LogoPass <->
       forall j, 0 <= j < 0x30 -> Spec.logo_match buf j) /\
    (Header.logo r = Header.LogoCgb <->
       exists k, Spec.first_mismatch buf k /\ 0x18 < k < 0x30) /\
    (Header.logo r = Header.LogoFail <->
       exists k, Spec.first_mismatch buf k /\ k <= 0x18).
Proof.
  intros H.
  destruct (header_info_spec buf) as (r & i & chk & Hr & Hi & _ & Hli & Hl & _);
    [unfold HEADER_CHKSUM; lia|].
  destruct (logo_loop_spec (Z.to_nat 0x30) 0 buf) as (i' & Hi' & Hrange & Hm & Hd);
    [lia|reflexivity|unfold HEADER_LOGO; lia|].
  rewrite Hi in Hi'. injection Hi' as <-.
  assert (Huniq : forall k, Spec.first_mismatch buf k -> i = k).
  { intros k (Hk & Hbelow & Hat).
    destruct (Z.lt_trichotomy i k) as [Lt|[Eq|Gt]]; [|assumption|].
    - exfalso. apply Hd; [lia|]. apply Hbelow; lia.
    - exfalso. apply Hat, Hm; lia. }
  assert (Hfirst : i < 0x30 -> Spec.first_mismatch buf i).
  { intros Hlt. repeat split; try lia.
    - intros j Hj. apply Hm; lia.
    - now apply Hd. }
  exists r. split; [assumption|]. rewrite Hli, Hl.
  unfold Header.logo_verdict. rewrite Z.gtb_ltb.
  split; [exact Huniq|].
  destruct (Z.eqb_spec i 0x30) as [E|NE]; [|destruct (Z.ltb_spec 0x18 i)];
    cbn [fst]; repeat split; try discriminate; try reflexivity.
  - intros _ j Hj. apply Hm; lia.
  - intros (k & Hk & Hr'). apply Huniq in Hk. lia.
  - intros (k & Hk & Hr'). apply Huniq in Hk. lia.
  - intros Hall. exfalso. apply Hd; [lia|]. apply Hall; lia.
  - intros _. exists i. split; [apply Hfirst|]; lia.
  - intros (k & Hk & Hr'). apply Huniq in Hk. lia.
  - intros Hall. exfalso. apply Hd; [lia|]. apply Hall; lia.
  - intros (k & Hk & Hr'). apply Huniq in Hk. lia.
  - intros _. exists i. split; [apply Hfirst|]; lia.
Qed.

Lemma logo_tier_witness :
  0x14E <= Z.of_nat (List.length Sample.cgb_header) /\
  exists r, Header.header_info Sample.cgb_header = Some r /\
    (forall k, Spec.first_mismatch Sample.cgb_header k -> Header.logo_i r = k) /\
    (Header.logo r = Header.LogoPass <->
       forall j, 0 <= j < 0x30 -> Spec.logo_match Sample.cgb_header j) /\
    (Header.logo r = Header.LogoCgb <->
       exists k, Spec.first_mismatch Sample.cgb_header k /\ 0x18 < k < 0x30) /\
    (Header.logo r = Header.LogoFail <->
       exists k, Spec.first_mismatch Sample.cgb_header k /\ k <= 0x18).
Proof.
  split.
  - vm_compute; intro; discriminate.
  - apply (logo_tier Sample.cgb_header). vm_compute; intro; discriminate.
Defined.

(** C7: the boot status is "will not boot on any system" exactly when the
    logo fails outright or the checksum fails, "will only boot on CGB"
    exactly when the logo is the partial one and the checksum passes, and
    "will work on any system" exactly when both pass. *)
Theorem boot_verdict (buf : list byte) :
  0x14E <= Z.of_nat (List.length buf) ->
  exists r, Header.header_info buf = Some r /\
    (Header.boot r = Header.BootNone <->
       Header.logo r = Header.LogoFail \/ Header.checksum_pass r = false) /\
    (Header.boot r = Header.BootCgbOnly <->
       Header.logo r = Header.LogoCgb /\ Header.checksum_pass r = true) /\
    (Header.boot r = Header.BootAny <->
       Header.logo r = Header.LogoPass /\ Header.checksum_pass r = true).
Proof.
  intros H.
  destruct (header_info_spec buf)
    as (r & i & chk & Hr & _ & _ & _ & Hl & _ & Hp & Hw & Hb);
    [unfold HEADER_CHKSUM; lia|].
  exists r. split; [assumption|].
  rewrite Hb, Hw, Hl, Hp.
  unfold Header.logo_verdict, Header.boot_status.
  destruct (chk =? 0); destruct (i =? 0x30); destruct (i >? 0x18);
    cbn; intuition (try discriminate; try reflexivity).
Qed.

Lemma boot_verdict_witness :
  0x14E <= Z.of_nat (List.length Sample.zero_header) /\
  exists r, Header.header_info Sample.zero_header = Some r /\
    (Header.boot r = Header.BootNone <->
       Header.logo r = Header.LogoFail \/ Header.checksum_pass r = false) /\
    (Header.boot r = Header.BootCgbOnly <->
       Header.logo r = Header.LogoCgb /\ Header.checksum_pass r = true) /\
    (Header.boot r = Header.BootAny <->
       Header.logo r = Header.LogoPass /\ Header.checksum_pass r = true).
Proof.
  split.
  - vm_compute; intro; discriminate.
  - apply (boot_verdict Sample.zero_header). vm_compute; intro; discriminate.
Defined.

Lemma checksummed_zset (buf : list byte) (off : Z) (old v : byte) :
  HEADER_TITLE <= off <= HEADER_CHKSUM ->
  zth buf off = Some old ->
  Spec.sum_bytes (Spec.checksummed (zset buf off v))
  = Spec.sum_bytes (Spec.checksummed buf) - byte_val old + byte_val v.
Proof.
  unfold Spec.checksummed, HEADER_TITLE, HEADER_CHKSUM.
  intros Hoff Hold.
  rewrite skipn_zset by lia.
  rewrite firstn_zset by lia.
  apply sum_bytes_zset.
  rewrite zth_firstn by lia.
  rewrite zth_skipn_shift by lia.
  rewrite <- Hold. f_equal. lia.
Qed.

(** C8, as the code has it: changing the value of one byte at an offset of
    [0x134, 0x14D] changes the 8-bit checksum that [header_info] calculates,
    so the checksum cannot pass both before and after: a passing checksum
    fails after the change, and a checksum that passes after the change
    failed before it. *)
Theorem mutation_changes_checksum (buf : list byte) (off : Z) (old v : byte) :
  0x14E <= Z.of_nat (List.length buf) ->
  HEADER_TITLE <= off <= HEADER_CHKSUM ->
  zth buf off = Some old ->
  v <> old ->
  exists r r',
    Header.header_info buf = Some r /\
    Header.header_info (zset buf off v) = Some r' /\
    Header.calculated_chk r' <> Header.calculated_chk r /\
    (Header.checksum_pass r = true -> Header.checksum_pass r' = false) /\
    (Header.checksum_pass r' = true -> Header.checksum_pass r = false).
Proof.
  intros Hlen Hoff Hold Hv.
  destruct (header_info_spec buf)
    as (r & i & chk & Hr & _ & Hchk & _ & _ & Hc & Hp & _);
    [unfold HEADER_CHKSUM; lia|].
  destruct (header_info_spec (zset buf off v))
    as (r' & i' & chk' & Hr' & _ & Hchk' & _ & _ & Hc' & Hp' & _);
    [rewrite zset_length; unfold HEADER_CHKSUM; lia|].
  rewrite checksum_spec in Hchk by (unfold HEADER_CHKSUM; lia).
  rewrite checksum_spec in Hchk'
    by (rewrite zset_length; unfold HEADER_CHKSUM; lia).
  rewrite (checksummed_zset buf off old v Hoff Hold) in Hchk'.
  injection Hchk as Hchk. injection Hchk' as Hchk'.
  assert (Hne : chk' <> chk).
  { pose proof (byte_val_range old) as Ro. pose proof (byte_val_range v) as Rv.
    assert (byte_val v <> byte_val old) by (intro E; apply Hv, byte_val_inj, E).
    set (a := Spec.sum_bytes (Spec.checksummed buf)) in *.
    pose proof (Z.div_mod (a + 25) 256) as D1.
    pose proof (Z.div_mod (a - byte_val old + byte_val v + 25) 256) as D2.
    lia. }
  exists r, r'. repeat split; try assumption.
  - now rewrite Hc, Hc'.
  - rewrite Hp, Hp'. intros E. apply Z.eqb_eq in E. apply Z.eqb_neq. lia.
  - rewrite Hp, Hp'. intros E. apply Z.eqb_eq in E. apply Z.eqb_neq. lia.
Qed.

Lemma mutation_changes_checksum_witness :
  0x14E <= Z.of_nat (List.length Sample.good_header) /\
  HEADER_TITLE <= HEADER_ROMSIZE <= HEADER_CHKSUM /\
  zth Sample.good_header HEADER_ROMSIZE = Some x00 /\
  x01 <> x00 /\
  exists r r',
    Header.header_info Sample.good_header = Some r /\
    Header.header_info (zset Sample.good_header HEADER_ROMSIZE x01) = Some r' /\
    Header.calculated_chk r' <> Header.calculated_chk r /\
    (Header.checksum_pass r = true -> Header.checksum_pass r' = false) /\
    (Header.checksum_pass r' = true -> Header.checksum_pass r = false).
Proof.
  assert (L : 0x14E <= Z.of_nat (List.length Sample.good_header))
    by (vm_compute; intro; discriminate).
  assert (R : HEADER_TITLE <= HEADER_ROMSIZE <= HEADER_CHKSUM)
    by (unfold HEADER_TITLE, HEADER_ROMSIZE, HEADER_CHKSUM; lia).
  assert (B : zth Sample.good_header HEADER_ROMSIZE = Some x00)
    by reflexivity.
  assert (N : x01 <> x00) by discriminate.
  repeat split; try assumption; try apply R.
  exact (mutation_changes_checksum Sample.good_header HEADER_ROMSIZE x00 x01 L R B N).
Defined.

(** C8 as it is stated fails: in a header of zeros the checksum fails, and it
    still fails when the second byte of the title is changed from 0 to 1. *)
Lemma mutation_flip_counterexample :
  let buf := Sample.zero_header in
  let off := HEADER_TITLE + 1 in
  let buf' := zset buf off x01 in
  HEADER_TITLE <= off <= HEADER_CHKSUM /\
  zth buf off = Some x00 /\ zth buf' off = Some x01 /\
  (forall j, j <> off -> zth buf' j = zth buf j) /\
  option_map Header.checksum_pass (Header.header_info buf) = Some false /\
  option_map Header.checksum_pass (Header.header_info buf') = Some false.
Proof.
  cbv zeta.
  split; [unfold HEADER_TITLE, HEADER_CHKSUM; lia|].
  split; [vm_compute; reflexivity|].
  split; [vm_compute; reflexivity|].
  split; [intros j Hj; apply zth_zset_other; congruence|].
  split; vm_compute; reflexivity.
Qed.

(** ** Space auto-detection *)

Lemma char_at_outside (s : list ascii) (i : Z) :
  Z.of_nat (List.length s) < i -> char_at s i = None.
Proof.
  revert i; induction s as [|c s IH]; simpl; intros i H.
  - destruct (Z.eqb_spec i 0); [lia|reflexivity].
  - destruct (Z.eqb_spec i 0); [lia|]. apply IH; lia.
Qed.

Lemma char_at_app (pre s : list ascii) (j : Z) :
  0 <= j -> char_at (pre ++ s) (Z.of_nat (List.length pre) + j) = char_at s j.
Proof.
  intros Hj; induction pre as [|c pre IH].
  - reflexivity.
  - cbn [List.length app char_at].
    destruct (Z.eqb_spec (Z.of_nat (S (List.length pre)) + j) 0); [lia|].
    rewrite <- IH. f_equal. lia.
Qed.

Lemma tolower_dot (c : ascii) : Ascii.eqb (tolower c) "." = Ascii.eqb c ".".
Proof.
  destruct c as [[] [] [] [] [] [] [] []]; reflexivity.
Qed.

(** The last four characters split off a name of four characters or more. *)
Lemma last_four (file : list ascii) :
  (4 <= List.length file)%nat ->
  exists pre c4 c3 c2 c1, file = pre ++ [c4; c3; c2; c1].
Proof.
  intros H.
  pose proof (firstn_skipn (List.length file - 4) file) as E.
  pose proof (length_skipn (List.length file - 4) file) as L.
  destruct (skipn (List.length file - 4) file) as [|c4 [|c3 [|c2 [|c1 [|c0 t]]]]];
    simpl in L; try lia.
  now exists (firstn (List.length file - 4) file), c4, c3, c2, c1.
Qed.

Lemma sav_suffix_app (pre : list ascii) (c4 c3 c2 c1 : ascii) :
  Spec.sav_suffix (pre ++ [c4; c3; c2; c1]) <->
  [tolower c4; tolower c3; tolower c2; tolower c1] = list_ascii_of_string ".sav".
Proof.
  unfold Spec.sav_suffix.
  rewrite length_app. cbn [List.length].
  replace (List.length pre + 4 - 4)%nat with (List.length pre) by lia.
  rewrite skipn_app, skipn_all, Nat.sub_diag. reflexivity.
Qed.

Lemma detect_space_app (pre : list ascii) (c4 c3 c2 c1 : ascii) :
  Z.of_nat (List.length pre) + 4 < 2 ^ 64 ->
  detect_space (pre ++ [c4; c3; c2; c1])
  = if Ascii.eqb c4 "." && Ascii.eqb (tolower c3) "s"
       && Ascii.eqb (tolower c2) "a" && Ascii.eqb (tolower c1) "v"
    then Some FROM_SRAM else Some FROM_ROM.
Proof.
  intros H. unfold detect_space, to_size_t.
  rewrite length_app. cbn [List.length].
  replace (Z.of_nat (List.length pre + 4)) with (Z.of_nat (List.length pre) + 4)
    by lia.
  set (n := Z.of_nat (List.length pre)) in *.
  assert (0 <= n) by lia.
  rewrite (Z.mod_small (n + 4)) by lia.
  replace (n + 4 - 4) with (n + 0) by lia.
  replace (n + 4 - 3) with (n + 1) by lia.
  replace (n + 4 - 2) with (n + 2) by lia.
  replace (n + 4 - 1) with (n + 3) by lia.
  rewrite !Z.mod_small by lia.
  unfold n. rewrite !char_at_app by lia. cbn [char_at Z.eqb Z.sub Z.add Z.pos_sub Z.opp Pos.pred_double].
  destruct (Ascii.eqb c4 "."); [|reflexivity].
  destruct (Ascii.eqb (tolower c3) "s"); [|reflexivity].
  destruct (Ascii.eqb (tolower c2) "a"); [|reflexivity].
  destruct (Ascii.eqb (tolower c1) "v"); reflexivity.
Qed.

(** C10: the auto-detection reads the name at index length - 4, computed as a
    size_t. For a name of fewer than four characters the index wraps around
    to 2^64 + length - 4 and the read is outside the name; for a name of four
    characters or more the space is SRAM exactly when the last four characters
    are ".sav" in any case, and ROM otherwise. *)
Theorem detect_space_spec (file : list ascii) :
  Z.of_nat (List.length file) < 2 ^ 64 ->
  (Z.of_nat (List.length file) < 4 ->
     to_size_t (to_size_t (Z.of_nat (List.length file)) - 4)
     = 2 ^ 64 + Z.of_nat (List.length file) - 4 /\
     char_at file (2 ^ 64 + Z.of_nat (List.length file) - 4) = None /\
     detect_space file = None) /\
  (4 <= Z.of_nat (List.length file) ->
     (Spec.sav_suffix file -> detect_space file = Some FROM_SRAM) /\
     (~ Spec.sav_suffix file -> detect_space file = Some FROM_ROM)).
Proof.
  intros Hmax. split.
  - intros Hshort.
    assert (Hidx : to_size_t (to_size_t (Z.of_nat (List.length file)) - 4)
                   = 2 ^ 64 + Z.of_nat (List.length file) - 4).
    { unfold to_size_t. rewrite (Z.mod_small (Z.of_nat _)) by lia.
      rewrite <- (Z.mod_add _ 1) by lia. rewrite Z.mod_small; lia. }
    assert (Hout : char_at file (2 ^ 64 + Z.of_nat (List.length file) - 4) = None)
      by (apply char_at_outside; lia).
    repeat split; try assumption.
    unfold detect_space. rewrite Hidx, Hout. reflexivity.
  - intros Hlong.
    destruct (last_four file) as (pre & c4 & c3 & c2 & c1 & ->); [lia|].
    rewrite length_app in Hmax. cbn [List.length] in Hmax.
    rewrite detect_space_app by lia. rewrite sav_suffix_app.
    rewrite <- (tolower_dot c4).
    cbn [list_ascii_of_string].
    destruct (Ascii.eqb_spec (tolower c4) ".") as [E4|N4];
      destruct (Ascii.eqb_spec (tolower c3) "s") as [E3|N3];
      destruct (Ascii.eqb_spec (tolower c2) "a") as [E2|N2];
      destruct (Ascii.eqb_spec (tolower c1) "v") as [E1|N1];
      cbn [andb]; split; intros Hs; try reflexivity;
      try (exfalso; apply Hs; congruence);
      injection Hs; intros; contradiction.
Qed.

Lemma detect_space_spec_witness :
  Z.of_nat (List.length (list_ascii_of_string "game.SAV")) < 2 ^ 64 /\
  4 <= Z.of_nat (List.length (list_ascii_of_string "game.SAV")) /\
  Spec.sav_suffix (list_ascii_of_string "game.SAV") /\
  detect_space (list_ascii_of_string "game.SAV") = Some FROM_SRAM.
Proof.
  assert (M : Z.of_nat (List.length (list_ascii_of_string "game.SAV")) < 2 ^ 64)
    by (cbn; lia).
  assert (L : 4 <= Z.of_nat (List.length (list_ascii_of_string "game.SAV")))
    by (cbn; lia).
  assert (S : Spec.sav_suffix (list_ascii_of_string "game.SAV"))
    by reflexivity.
  split; [exact M|]. split; [exact L|]. split; [exact S|].
  exact (proj1 (proj2 (detect_space_spec _ M) L) S).
Defined.

(** A forced space, or no file name, leaves [opts.space] as it is. *)
Lemma resolve_space_forced (opts : options_t) :
  space opts <> SPACE_UNSET \/ file opts = None ->
  resolve_space opts = Some (space opts).
Proof.
  unfold resolve_space. intros [H|H].
  - destruct (space opts); [contradiction| |]; reflexivity.
  - rewrite H. destruct (space opts); reflexivity.
Qed.

(** ** The transfer loops *)

Lemma to_uint_small (z : Z) : 0 <= z < 2 ^ 32 -> to_uint z = z.
Proof. intros H. unfold to_uint. now apply Z.mod_small. Qed.

Lemma to_int_small (z : Z) : 0 <= z < 2 ^ 31 -> to_int z = z.
Proof.
  intros H. unfold to_int. rewrite Z.mod_small by lia.
  destruct (Z.ltb_spec z (2 ^ 31)); lia.
Qed.

(** [(int)x] converted back for a comparison with an [unsigned int]. *)
Lemma to_uint_to_int (z : Z) : 0 <= z < 2 ^ 32 -> to_uint (to_int z) = z.
Proof.
  intros H. unfold to_uint, to_int. rewrite (Z.mod_small z) by lia.
  destruct (Z.ltb_spec z (2 ^ 31)).
  - apply Z.mod_small; lia.
  - rewrite <- (Z.mod_add _ 1) by lia. rewrite Z.mod_small; lia.
Qed.

Lemma limits_range (space : space_t) : 0 <= limits space <= BANK_SIZE.
Proof. destruct space; unfold limits, BANK_SIZE, SRAM_SIZE; lia. Qed.

Lemma narrow_range (code readuntil : Z) :
  Read.narrow code readuntil = readuntil \/
  32768 <= Read.narrow code readuntil <= BANK_SIZE.
Proof.
  unfold Read.narrow, BANK_SIZE.
  destruct (Z.leb_spec 0 code); destruct (Z.leb_spec code 7); cbn [andb];
    try (destruct (code =? 0x52); [right; lia|];
         destruct (code =? 0x53); [right; lia|];
         destruct (code =? 0x54); [right; lia|]; now left).
  right.
  assert (C : code = 0 \/ code = 1 \/ code = 2 \/ code = 3 \/ code = 4
              \/ code = 5 \/ code = 6 \/ code = 7) by lia.
  destruct C as [->|[->|[->|[->|[->|[->|[->| ->]]]]]]]; vm_compute;
    split; intro; discriminate.
Qed.

Lemma cart_block_length (w : world) (from : space_t) (a : Z) (n : nat) :
  List.length (cart_block w from a n) = n.
Proof.
  revert a; induction n as [|n IH]; intros a; simpl; [reflexivity|].
  now rewrite IH.
Qed.

Lemma zth_cart_block (w : world) (from : space_t) (a : Z) (n : nat) (i : Z) :
  0 <= i < Z.of_nat n ->
  zth (cart_block w from a n) i = Some (cart w from (a + i)).
Proof.
  revert a i; induction n as [|n IH]; intros a i H; [lia|].
  cbn [cart_block zth].
  destruct (Z.eqb_spec i 0) as [E|NE].
  - subst i. now rewrite Z.add_0_r.
  - rewrite IH by lia. do 2 f_equal. lia.
Qed.

Lemma switches_app (a b : list event) :
  Spec.switches (a ++ b) = Spec.switches a ++ Spec.switches b.
Proof.
  induction a as [|e a IH]; [reflexivity|].
  destruct e; cbn [app Spec.switches]; rewrite IH; reflexivity.
Qed.

Lemma reads_app (a b : list event) :
  Spec.reads (a ++ b) = Spec.reads a ++ Spec.reads b.
Proof.
  induction a as [|e a IH]; [reflexivity|].
  destruct e; cbn [app Spec.reads]; rewrite IH; reflexivity.
Qed.

Ltac rproj :=
  cbn [Read.offset Read.readuntil Read.untilset Read.saved Read.trace].
Ltac rproj_in H :=
  cbn [Read.offset Read.readuntil Read.untilset Read.saved Read.trace] in H.

Section ReadLoop.

Variable w : world.
Variable space : space_t.
Variables base blocksize : Z.
Hypothesis blocksize_int : 0 < blocksize <= INT_MAX.

Lemma cond_spec (s : Read.state) :
  0 <= Read.offset s <= limits space ->
  Read.cond blocksize s = (Read.offset s + blocksize <=? Read.readuntil s).
Proof.
  intros H. pose proof (limits_range space) as L.
  unfold BANK_SIZE, INT_MAX in *. unfold Read.cond.
  rewrite (to_uint_small (Read.offset s + blocksize)) by lia.
  rewrite to_uint_to_int by lia. reflexivity.
Qed.

(** One iteration keeps the invariant, moves [offset] by one block, and
    stops in a state that satisfies the exit condition. *)
Lemma body_step (s : Read.state) :
  Invariant.read_inv space blocksize s ->
  Read.cond blocksize s = true ->
  match Read.body w space base blocksize s with
  | Next s' =>
      Invariant.read_inv space blocksize s' /\
      Read.offset s' = Read.offset s + blocksize
  | Stop o s' => Invariant.read_post space blocksize o s' /\ o <> Completed
  end.
Proof.
  intros ([Ho Hd Hr Hj Ht] & HK & Hn) Hcond.
  rewrite cond_spec in Hcond by assumption. apply Z.leb_le in Hcond.
  pose proof (limits_range space) as L.
  unfold BANK_SIZE, INT_MAX, HEADER_ROMSIZE in *.
  assert (Hread : Forall (Spec.block_sized blocksize)
            (Read.trace s ++
               [EmsRead space (to_uint (Read.offset s + base)) blocksize])).
  { apply Forall_app. split; [assumption|]. now repeat constructor. }
  assert (Hsw : Spec.switches
            (Read.trace s ++
               [EmsRead space (to_uint (Read.offset s + base)) blocksize])
          = Spec.switches (Read.trace s)).
  { rewrite switches_app. apply app_nil_r. }
  assert (Hearly : forall o, o = Returned1 \/ o = Fatal ->
            Invariant.read_post space blocksize o
              (Read.log (EmsRead space (to_uint (Read.offset s + base)) blocksize) s)
            /\ o <> Completed).
  { intros o Ho'. split; [|destruct Ho'; congruence].
    split; [constructor; assumption|].
    split; [destruct Ho'; congruence|].
    split; [destruct Ho'; congruence|].
    assert (Invariant.not_narrowed space
              (Read.log (EmsRead space (to_uint (Read.offset s + base)) blocksize) s)
            \/ Invariant.narrowed space blocksize
              (Read.log (EmsRead space (to_uint (Read.offset s + base)) blocksize) s)).
    { unfold Invariant.not_narrowed, Invariant.narrowed, Read.log.
      cbn [Read.untilset Read.trace Read.readuntil]. rewrite Hsw. exact Hn. }
    destruct Ho' as [->| ->]; assumption. }
  unfold Read.body, ems_read.
  destruct (read_error w space (to_uint (Read.offset s + base)));
    [apply Hearly; now left|].
  unfold Read.log at 1. cbn [Read.offset].
  destruct (fwrite_error w (Read.offset s)); [apply Hearly; now right|].
  unfold Read.log. cbn [Read.offset Read.readuntil Read.untilset Read.saved Read.trace].
  rewrite (to_uint_small (Read.offset s + blocksize)) by lia.
  rewrite Z.geb_leb. unfold HEADER_ROMSIZE.
  assert (Hd' : (blocksize | Read.offset s + blocksize))
    by (apply Z.divide_add_r; [assumption|apply Z.divide_refl]).
  set (buf := cart_block w space (to_uint (Read.offset s + base))
                (Z.to_nat blocksize)).
  assert (Hplain :
    (space = FROM_ROM -> Read.untilset s = 0 ->
     Read.offset s + blocksize < 328) ->
    Invariant.read_inv space blocksize
      (Read.mkState (Read.offset s + blocksize) (Read.readuntil s)
         (Read.untilset s) (Read.saved s ++ buf)
         (Read.trace s ++
            [EmsRead space (to_uint (Read.offset s + base)) blocksize])) /\
    Read.offset s + blocksize = Read.offset s + blocksize).
  { intros HK'. split; [|reflexivity].
    split; [constructor; rproj; try assumption; lia|].
    split; [exact HK'|].
    unfold Invariant.not_narrowed, Invariant.narrowed.
    cbn [Read.untilset Read.trace Read.readuntil]. rewrite Hsw. exact Hn. }
  destruct (Z.leb_spec 328 (Read.offset s + blocksize)) as [Hge|Hlt];
    [destruct (Z.eqb_spec (Read.untilset s) 0) as [Hu|Hu];
       [destruct (space_eqb space FROM_ROM) eqn:Hspace|]|];
    cbn [andb].
  - (* ROM, not narrowed yet: the switch *)
    assert (Hsp : space = FROM_ROM) by (destruct space; now try discriminate).
    assert (Hlim : limits space = 4194304) by (now rewrite Hsp).
    destruct Hn as [(_ & Hs0 & Hr0)|(Hu1 & _)]; [|lia].
    specialize (HK Hsp Hu).
    replace (Read.offset s + blocksize - blocksize) with (Read.offset s) by lia.
    rewrite (to_uint_small (Read.offset s)) by lia.
    rewrite (to_uint_small (328 - Read.offset s)) by lia.
    destruct (Z.eq_dec (Read.offset s + blocksize) 328) as [Heq|Hne].
    + (* the byte after the block *)
      unfold buf. rewrite zth_outside
        by (right; rewrite cart_block_length; lia).
      assert (Hb : 328 - Read.offset s = blocksize) by lia.
      split; [|discriminate].
      split; [constructor; rproj; try assumption; try lia|].
      { apply Forall_app. split; [assumption|]. now repeat constructor. }
      split; [discriminate|]. split; [discriminate|].
      repeat split; rproj; try assumption.
      * rewrite switches_app, Hsw, Hs0, Hb. reflexivity.
      * unfold HEADER_ROMSIZE. rewrite <- Heq. assumption.
    + (* a byte of the block *)
      unfold buf. rewrite zth_cart_block by lia.
      set (code := cart w space (to_uint (Read.offset s + base)
                                 + (328 - Read.offset s))).
      pose proof (narrow_range (byte_val code) (Read.readuntil s)) as Hnr.
      unfold BANK_SIZE in Hnr.
      split; [|reflexivity].
      split; [constructor; rproj; try assumption; try lia|].
      * intros Hle.
        destruct (Z.le_gt_cases blocksize 328) as [Hsmall|Hbig]; [lia|].
        destruct (Z.eq_dec (Read.offset s) 0) as [Hz|Hnz]; [lia|].
        assert (blocksize <= Read.offset s)
          by (apply Z.divide_pos_le; [lia|assumption]).
        lia.
      * apply Forall_app. split; [assumption|]. now repeat constructor.
      * split; [intros _ Hu0; rproj_in Hu0; discriminate|].
        right. repeat split; rproj; try assumption.
        exists (328 - Read.offset s), code. repeat split; try lia.
        -- rewrite switches_app, Hsw, Hs0. reflexivity.
        -- now rewrite Hr0.
        -- unfold HEADER_ROMSIZE. intros Hdiv.
           assert (Hsub : (blocksize | 328 - Read.offset s))
             by (apply Z.divide_sub_r; assumption).
           apply Z.divide_pos_le in Hsub; lia.
  - (* another space *)
    apply Hplain. intros Hsp. rewrite Hsp in Hspace. discriminate.
  - (* narrowed before *)
    apply Hplain. intros _ Hu0. contradiction.
  - (* the size byte is not reached yet *)
    apply Hplain. intros _ _. assumption.
Qed.

Lemma init_inv : Invariant.read_inv space blocksize (Read.init space).
Proof.
  pose proof (limits_range space) as L. unfold BANK_SIZE, INT_MAX in *.
  assert (E : to_uint (limits space) = limits space)
    by (apply to_uint_small; lia).
  unfold Invariant.read_inv, Invariant.not_narrowed, Read.init. rproj.
  rewrite E. split; [constructor; rproj|split].
  - lia.
  - apply Z.divide_0_r.
  - lia.
  - lia.
  - constructor.
  - intros _ _. unfold HEADER_ROMSIZE. lia.
  - left. repeat split.
Qed.

(** With fuel for the blocks that are left below the limit of the space, the
    loop ends, and it ends in a state that satisfies the exit condition. *)
Lemma loop_spec (fuel : nat) (s : Read.state) :
  Invariant.read_inv space blocksize s ->
  limits space - Read.offset s < Z.of_nat fuel * blocksize ->
  Invariant.read_post space blocksize
    (fst (Read.loop fuel w space base blocksize s))
    (snd (Read.loop fuel w space base blocksize s)).
Proof.
  revert s; induction fuel as [|fuel IH]; intros s Hinv Hfuel.
  - destruct Hinv as ([Ho _ _ _ _] & _). lia.
  - cbn [Read.loop].
    destruct (Read.cond blocksize s) eqn:C.
    + pose proof (body_step s Hinv C) as Hstep.
      destruct (Read.body w space base blocksize s) as [s'|o s'].
      * destruct Hstep as [Hinv' Hoff]. apply IH; [assumption|].
        rewrite Hoff. rewrite Nat2Z.inj_succ, Z.mul_succ_l in Hfuel. lia.
      * apply Hstep.
    + destruct Hinv as (Hcore & _ & Hn). cbn [fst snd].
      split; [assumption|]. split; [discriminate|]. split; [now intros _|].
      assumption.
Qed.

Lemma fuel_enough :
  limits space - 0 < Z.of_nat (Read.fuel space blocksize) * blocksize.
Proof.
  pose proof (limits_range space) as L. unfold Read.fuel.
  rewrite Nat2Z.inj_succ, Z2Nat.id by (apply Z.div_pos; lia).
  pose proof (Z.mul_succ_div_gt (limits space) blocksize). lia.
Qed.

(** The read branch of main ends, in a state that satisfies the exit
    condition of the loop. *)
Lemma session_post :
  Invariant.read_post space blocksize
    (fst (Read.session w space base blocksize))
    (snd (Read.session w space base blocksize)).
Proof.
  unfold Read.session. destruct (fopen_w_ok w); cbn [negb].
  - apply loop_spec; [apply init_inv|]. apply fuel_enough.
  - destruct init_inv as (Hcore & _ & Hn). cbn [fst snd].
    split; [assumption|]. split; [discriminate|]. split; [discriminate|].
    assumption.
Qed.

End ReadLoop.

(** After the [switch] has run ([untilset] is not 0), an iteration leaves
    [readuntil] and [untilset] alone and does not evaluate the [switch]. *)
Lemma body_after_narrowing (w : world) (space : space_t) (base blocksize : Z)
  (s : Read.state) :
  Read.untilset s <> 0 ->
  match Read.body w space base blocksize s with
  | Next s' | Stop _ s' =>
      Read.readuntil s' = Read.readuntil s /\
      Read.untilset s' = Read.untilset s /\
      Spec.switches (Read.trace s') = Spec.switches (Read.trace s)
  end.
Proof.
  intros Hu. unfold Read.body.
  assert (Hsw : forall e, Spec.switches (Read.trace s ++ [EmsRead space e blocksize])
                          = Spec.switches (Read.trace s))
    by (intros e; rewrite switches_app; apply app_nil_r).
  destruct (ems_read w space (to_uint (Read.offset s + base)) blocksize) as [buf|];
    [|unfold Read.log; rproj; auto].
  unfold Read.log at 1. rproj.
  destruct (fwrite_error w (Read.offset s)); [unfold Read.log; rproj; auto|].
  unfold Read.log. rproj.
  destruct (Z.eqb_spec (Read.untilset s) 0) as [E|_]; [contradiction|].
  rewrite andb_false_r. cbn [andb]. rproj. auto.
Qed.

Lemma narrow_unknown (code readuntil : Z) :
  Header.rom_size_kb code = None -> Read.narrow code readuntil = readuntil.
Proof.
  unfold Header.rom_size_kb, Read.narrow.
  destruct ((0 <=? code) && (code <=? 7)); [discriminate|].
  destruct (code =? 0x52); [discriminate|].
  destruct (code =? 0x53); [discriminate|].
  destruct (code =? 0x54); [discriminate|reflexivity].
Qed.

Section ReadRun.

Variable w : world.
Variable space : space_t.
Variables base blocksize : Z.
Hypothesis blocksize_int : 0 < blocksize <= INT_MAX.
Hypothesis no_read_error : forall a, read_error w space a = false.
Hypothesis no_fwrite_error : forall o, fwrite_error w o = false.

(** With a device and a file that do not fail, and once the bound is final,
    the loop reads the [n] blocks that fit below [readuntil] and ends. *)
Lemma loop_run (n fuel : nat) (s : Read.state) :
  0 <= Read.offset s -> Read.readuntil s <= BANK_SIZE ->
  Read.untilset s <> 0 \/ space <> FROM_ROM ->
  Read.offset s + Z.of_nat n * blocksize <= Read.readuntil s
    < Read.offset s + (Z.of_nat n + 1) * blocksize ->
  (n < fuel)%nat ->
  exists s', Read.loop fuel w space base blocksize s = (Completed, s') /\
    Read.offset s' = Read.offset s + Z.of_nat n * blocksize /\
    Read.readuntil s' = Read.readuntil s /\
    Read.untilset s' = Read.untilset s /\
    Spec.switches (Read.trace s') = Spec.switches (Read.trace s) /\
    List.length (Spec.reads (Read.trace s'))
    = (List.length (Spec.reads (Read.trace s)) + n)%nat.
Proof.
  unfold BANK_SIZE, INT_MAX in *.
  revert fuel s; induction n as [|n IH]; intros fuel s Ho Hr Hu Hn Hfuel;
    (destruct fuel as [|fuel]; [lia|]); cbn [Read.loop]; unfold Read.cond;
    rewrite (to_uint_small (Read.offset s + blocksize)) by lia;
    rewrite to_uint_to_int by lia.
  - destruct (Z.leb_spec (Read.offset s + blocksize) (Read.readuntil s)); [lia|].
    exists s. repeat split; lia.
  - rewrite Nat2Z.inj_succ, Z.mul_succ_l in Hn.
    destruct (Z.leb_spec (Read.offset s + blocksize) (Read.readuntil s)); [|lia].
    unfold Read.body, ems_read. rewrite no_read_error.
    unfold Read.log at 1. rproj. rewrite no_fwrite_error.
    unfold Read.log. rproj.
    rewrite (to_uint_small (Read.offset s + blocksize)) by lia.
    assert (Hno : (Read.offset s + blocksize >=? HEADER_ROMSIZE)
                  && (Read.untilset s =? 0) && space_eqb space FROM_ROM = false).
    { destruct Hu as [Hu|Hu].
      - destruct (Z.eqb_spec (Read.untilset s) 0); [contradiction|].
        now rewrite andb_false_r.
      - destruct space; try contradiction; apply andb_false_r. }
    rewrite Hno.
    match goal with
    | |- exists s', Read.loop _ _ _ _ _ ?st = _ /\ _ =>
        destruct (IH fuel st) as (s' & Hl & Ho' & Hr' & Hu' & Hs' & Hc')
    end; rproj; try assumption; try lia.
    exists s'. rewrite Hl.
    rewrite Ho', Hr', Hu', Hs', Hc'. revert Ho' Hr' Hu' Hs' Hc'. rproj.
    intros. rewrite switches_app, reads_app, length_app.
    cbn [Spec.switches Spec.reads List.length].
    rewrite app_nil_r. repeat split; lia.
Qed.

End ReadRun.

Lemma writes_app (a b : list event) :
  Spec.writes (a ++ b) = Spec.writes a ++ Spec.writes b.
Proof.
  induction a as [|e a IH]; [reflexivity|].
  destruct e; cbn [app Spec.writes]; rewrite IH; reflexivity.
Qed.

Section WriteLoop.

Variable w : world.
Variable space : space_t.
Variables base blocksize : Z.
Hypothesis blocksize_int : 0 < blocksize <= INT_MAX.

(** The signed comparison of the write loop does not see a wrapped sum:
    an offset that is not 0 is at least one block. *)
Lemma write_cond_spec (s : Write.state) :
  Invariant.write_inv space blocksize s ->
  (to_int (to_uint (Write.offset s + blocksize)) <=? limits space)
  = (Write.offset s + blocksize <=? limits space).
Proof.
  intros (Ho & Hd & _). pose proof (limits_range space) as L.
  unfold BANK_SIZE, INT_MAX in *.
  rewrite to_uint_small by lia.
  destruct (Z.eq_dec (Write.offset s) 0) as [Hz|Hnz].
  - rewrite to_int_small by lia. reflexivity.
  - assert (blocksize <= Write.offset s)
      by (apply Z.divide_pos_le; [lia|assumption]).
    rewrite to_int_small by lia. reflexivity.
Qed.

Lemma write_loop_spec (fuel : nat) (s : Write.state) :
  Invariant.write_inv space blocksize s ->
  limits space - Write.offset s < Z.of_nat fuel * blocksize ->
  Invariant.write_inv space blocksize
    (snd (Write.loop fuel w space base blocksize s)) /\
  fst (Write.loop fuel w space base blocksize s) <> OutOfFuel.
Proof.
  revert s; induction fuel as [|fuel IH]; intros s Hinv Hfuel.
  - destruct Hinv as (Ho & _). lia.
  - cbn [Write.loop]. rewrite write_cond_spec by assumption.
    destruct Hinv as (Ho & Hd & Ht).
    pose proof (limits_range space) as L. unfold BANK_SIZE, INT_MAX in *.
    destruct (Z.leb_spec (Write.offset s + blocksize) (limits space)) as [Hle|Hgt];
      [|cbn [fst snd]; split; [now repeat split|discriminate]].
    unfold Write.fread.
    destruct (Z.leb_spec blocksize (Z.of_nat (List.length (Write.rest s))))
      as [Hfull|Hshort]; cbv beta iota;
      [|cbn [fst snd]; split; [now repeat split|discriminate]].
    assert (Htr : Forall (Spec.block_sized blocksize)
              (Write.trace s ++
                 [EmsWrite space (to_uint (Write.offset s + base)) blocksize
                    (firstn (Z.to_nat blocksize) (Write.rest s))])).
    { apply Forall_app. split; [assumption|].
      constructor; [|constructor]. cbn [Spec.block_sized].
      split; [reflexivity|]. rewrite length_firstn. lia. }
    destruct (ems_write w space (to_uint (Write.offset s + base))
                (firstn (Z.to_nat blocksize) (Write.rest s)) blocksize);
      cbn [negb].
    + apply IH.
      * rewrite to_uint_small by lia. repeat split; cbn [Write.offset Write.trace];
          try lia; try assumption.
        apply Z.divide_add_r; [assumption|apply Z.divide_refl].
      * cbn [Write.offset]. rewrite to_uint_small by lia.
        rewrite Nat2Z.inj_succ, Z.mul_succ_l in Hfuel. lia.
    + cbn [fst snd]. split; [now repeat split|discriminate].
Qed.

Lemma write_session_spec :
  Invariant.write_inv space blocksize
    (snd (Write.session w space base blocksize)) /\
  fst (Write.session w space base blocksize) <> OutOfFuel.
Proof.
  pose proof (limits_range space) as L.
  assert (Hinit : forall f, Invariant.write_inv space blocksize (Write.init f)).
  { intros f. repeat split; cbn [Write.init Write.offset Write.trace];
      try lia; try constructor. apply Z.divide_0_r. }
  unfold Write.session.
  destruct (input w) as [f|]; [|split; [apply Hinit|discriminate]].
  destruct (Write.too_large (Write.file_size f) space);
    [split; [apply Hinit|discriminate]|].
  apply write_loop_spec; [apply Hinit|].
  unfold Write.fuel, Write.init, INT_MAX in *. cbn [Write.offset].
  rewrite Nat2Z.inj_succ, Z2Nat.id by (apply Z.div_pos; lia).
  pose proof (Z.mul_succ_div_gt (limits space) blocksize). lia.
Qed.

End WriteLoop.

(** ** The claims on the transfer engine *)

(** Where the size byte is looked up: at an index between 1 and the block
    size, which is inside the block exactly when the block size does not
    divide 0x148. When it divides 0x148 the index is the block size itself:
    the byte at offset 0x148 is the first one of the block that was not read
    yet. *)
Lemma switch_index (w : world) (space : space_t) (base blocksize : Z)
  (index : Z) (code : option byte) :
  0 < blocksize <= INT_MAX ->
  In (index, code)
    (Spec.switches (Read.trace (snd (Read.session w space base blocksize)))) ->
  0 < index <= blocksize /\
  (index < blocksize <-> ~ (blocksize | HEADER_ROMSIZE)) /\
  (code = None <-> index = blocksize).
Proof.
  intros Hbs Hin.
  destruct (session_post w space base blocksize Hbs) as (_ & _ & _ & Hn).
  assert (Hnarrow :
    Invariant.not_narrowed space (snd (Read.session w space base blocksize)) \/
    Invariant.narrowed space blocksize (snd (Read.session w space base blocksize)) ->
    0 < index <= blocksize /\
    (index < blocksize <-> ~ (blocksize | HEADER_ROMSIZE)) /\
    (code = None <-> index = blocksize)).
  { intros [(_ & Hs & _)|(_ & _ & i & c & Hs & _ & Hi & Hd)];
      rewrite Hs in Hin; cbn [In] in Hin; [contradiction|].
    destruct Hin as [E|[]]. injection E as <- <-.
    repeat split; try lia; try (intro; assumption); try discriminate. }
  destruct (fst (Read.session w space base blocksize)); try (apply Hnarrow, Hn).
  destruct Hn as (_ & _ & Hs & _ & Hd).
  rewrite Hs in Hin. destruct Hin as [E|[]]. injection E as <- <-.
  repeat split; try lia; try reflexivity.
  intros Hnd. contradiction.
Qed.

(** C1 fails on the code for a block size that divides 0x148. With blocks of
    8 bytes the test [offset >= HEADER_ROMSIZE] first holds after block 41,
    when offset is 0x148: the [switch] reads [buf[8]], one byte after the
    8 bytes of the block, which end at offset 0x147. *)
Theorem size_byte_after_block :
  let r := Read.session Sample.blank FROM_ROM 0 8 in
  fst r = Undefined /\
  Read.offset (snd r) = HEADER_ROMSIZE /\
  Spec.switches (Read.trace (snd r)) = [(8, None)] /\
  ~ (0 <= 8 < 8).
Proof.
  cbv zeta. split; [vm_compute; reflexivity|].
  split; [vm_compute; reflexivity|].
  split; [vm_compute; reflexivity|lia].
Qed.

(** C2, as the code has it: a read or a write session with a positive block
    size ends; when it completes, the final offset is a multiple of the block
    size and at most the limit of the space, every device call moved exactly
    one block, and the final offset is at most the final [readuntil] whenever
    the block size is ([readuntil] is the limit of the space unless the ROM
    size was decoded). *)
Theorem transfer_bounds (w : world) (space : space_t) (base blocksize : Z) :
  0 < blocksize <= INT_MAX ->
  fst (Read.session w space base blocksize) <> OutOfFuel /\
  fst (Write.session w space base blocksize) <> OutOfFuel /\
  (forall s, Read.session w space base blocksize = (Completed, s) ->
     (blocksize | Read.offset s) /\
     Read.offset s <= limits space /\
     (blocksize <= Read.readuntil s -> Read.offset s <= Read.readuntil s) /\
     (space <> FROM_ROM -> Read.readuntil s = limits space) /\
     Forall (Spec.block_sized blocksize) (Read.trace s)) /\
  (forall s, Write.session w space base blocksize = (Completed, s) ->
     (blocksize | Write.offset s) /\
     Write.offset s <= limits space /\
     Forall (Spec.block_sized blocksize) (Write.trace s)).
Proof.
  intros Hbs.
  pose proof (session_post w space base blocksize Hbs) as (Hcore & Hfuel & _ & Hn).
  pose proof (write_session_spec w space base blocksize Hbs) as (Hw & Hwfuel).
  split; [assumption|]. split; [assumption|]. split.
  - intros s Hs. rewrite Hs in Hcore, Hn. cbn [fst snd] in Hcore, Hn.
    destruct Hcore as [Ho Hd Hr Hj Ht].
    repeat split; try assumption; try lia.
    intros Hsp. destruct Hn as [(_ & _ & E)|(_ & E & _)];
      [assumption|contradiction].
  - intros s Hs. rewrite Hs in Hw. cbn [snd] in Hw.
    destruct Hw as (Ho & Hd & Ht). repeat split; try assumption; lia.
Qed.

Lemma transfer_bounds_witness :
  0 < 4096 <= INT_MAX /\
  let s := snd (Read.session Sample.blank FROM_ROM 0 4096) in
  Read.session Sample.blank FROM_ROM 0 4096 = (Completed, s) /\
  (4096 | Read.offset s) /\
  Read.offset s <= limits FROM_ROM /\
  (4096 <= Read.readuntil s -> Read.offset s <= Read.readuntil s) /\
  (FROM_ROM <> FROM_ROM -> Read.readuntil s = limits FROM_ROM) /\
  Forall (Spec.block_sized 4096) (Read.trace s).
Proof.
  assert (B : 0 < 4096 <= INT_MAX) by (unfold INT_MAX; lia).
  assert (F : fst (Read.session Sample.blank FROM_ROM 0 4096) = Completed)
    by (vm_compute; reflexivity).
  assert (C : Read.session Sample.blank FROM_ROM 0 4096
              = (Completed, snd (Read.session Sample.blank FROM_ROM 0 4096)))
    by (rewrite <- F; apply surjective_pairing).
  split; [exact B|]. cbv zeta. split; [exact C|].
  exact (proj1 (proj2 (proj2 (transfer_bounds Sample.blank FROM_ROM 0 4096 B)))
           _ C).
Defined.

(** C2 as it is stated fails: with blocks of 64 KiB and a size byte of 0 the
    first block is read before the bound is known; the session completes with
    an offset of 65536 and a bound of 32768. *)
Lemma overshoot_counterexample :
  let r := Read.session Sample.blank FROM_ROM 0 65536 in
  fst r = Completed /\
  Read.offset (snd r) = 65536 /\
  Read.readuntil (snd r) = 32768 /\
  ~ (Read.offset (snd r) <= Read.readuntil (snd r)).
Proof.
  cbv zeta.
  assert (E : Read.offset (snd (Read.session Sample.blank FROM_ROM 0 65536))
              = 65536) by (vm_compute; reflexivity).
  assert (R : Read.readuntil (snd (Read.session Sample.blank FROM_ROM 0 65536))
              = 32768) by (vm_compute; reflexivity).
  split; [vm_compute; reflexivity|].
  rewrite E, R. repeat split; lia.
Qed.

(** C3: a read of ROM space in blocks of 4096 bytes from a cart whose byte at
    offset 0x148 of the bank is 0, with a device and a file that do not fail:
    the first block sets the bound to 32 * 1024, and the session completes
    after exactly 8 device reads with an offset of 32768, where
    offset + 4096 is beyond the bound. *)
Theorem rom_read_32k (w : world) (bank : Z) :
  bank = 0 \/ bank = 1 ->
  fopen_w_ok w = true ->
  (forall a, read_error w FROM_ROM a = false) ->
  (forall o, fwrite_error w o = false) ->
  cart w FROM_ROM (to_uint (bank * BANK_SIZE) + HEADER_ROMSIZE) = x00 ->
  (exists s1,
     Read.body w FROM_ROM (to_uint (bank * BANK_SIZE)) 4096 (Read.init FROM_ROM)
     = Next s1 /\
     Read.readuntil s1 = 32 * 1024) /\
  exists s,
    Read.session w FROM_ROM (to_uint (bank * BANK_SIZE)) 4096 = (Completed, s) /\
    Read.offset s = 32768 /\
    Read.readuntil s = 32 * 1024 /\
    List.length (Spec.reads (Read.trace s)) = 8%nat /\
    Read.cond 4096 s = false.
Proof.
  intros Hbank Hopen Hread Hfwrite Hbyte.
  set (base := to_uint (bank * BANK_SIZE)) in *.
  assert (Hbase : to_uint (0 + base) = base).
  { unfold base, to_uint. rewrite Z.add_0_l. apply Z.mod_mod. lia. }
  set (s1 := Read.mkState 4096 32768 1
                ([] ++ cart_block w FROM_ROM base (Z.to_nat 4096))
                (([] ++ [EmsRead FROM_ROM base 4096])
                   ++ [RomSizeSwitch 328 (Some x00)])).
  assert (Hbody :
    Read.body w FROM_ROM base 4096 (Read.init FROM_ROM) = Next s1).
  { unfold Read.body, ems_read, Read.init, Read.log. rproj.
    rewrite Hbase, Hread, Hfwrite. rproj.
    change (to_uint (0 + 4096)) with 4096.
    change ((4096 >=? HEADER_ROMSIZE) && (0 =? 0) && space_eqb FROM_ROM FROM_ROM)
      with true. cbv iota.
    change (to_uint (HEADER_ROMSIZE - to_uint (4096 - 4096))) with 328.
    rewrite zth_cart_block by lia.
    unfold HEADER_ROMSIZE in Hbyte. rewrite Hbyte. reflexivity. }
  split; [exists s1; split; [exact Hbody|reflexivity]|].
  unfold Read.session. rewrite Hopen. cbn [negb].
  change (Read.fuel FROM_ROM 4096) with (S (Z.to_nat 1024)).
  cbn [Read.loop].
  change (Read.cond 4096 (Read.init FROM_ROM)) with true. cbv iota.
  rewrite Hbody.
  assert (Hbs : 0 < 4096 <= INT_MAX) by (unfold INT_MAX; lia).
  destruct (loop_run w FROM_ROM base 4096 Hbs Hread Hfwrite 7 (Z.to_nat 1024) s1)
    as (s & Hl & Ho & Hr & _ & _ & Hc).
  - unfold s1; rproj; lia.
  - unfold s1, BANK_SIZE; rproj; lia.
  - left. unfold s1; rproj; lia.
  - unfold s1; rproj; lia.
  - lia.
  - exists s. split; [exact Hl|].
    unfold s1 in Ho, Hr, Hc. rproj_in Ho. rproj_in Hr. rproj_in Hc.
    repeat split.
    + rewrite Ho. reflexivity.
    + rewrite Hr. reflexivity.
    + rewrite Hc. reflexivity.
    + unfold Read.cond. rewrite Ho, Hr. reflexivity.
Qed.

Lemma rom_read_32k_witness :
  (0 = 0 \/ 0 = 1) /\
  fopen_w_ok Sample.blank = true /\
  (forall a, read_error Sample.blank FROM_ROM a = false) /\
  (forall o, fwrite_error Sample.blank o = false) /\
  cart Sample.blank FROM_ROM (to_uint (0 * BANK_SIZE) + HEADER_ROMSIZE) = x00 /\
  exists s,
    Read.session Sample.blank FROM_ROM (to_uint (0 * BANK_SIZE)) 4096
    = (Completed, s) /\
    Read.offset s = 32768 /\
    Read.readuntil s = 32 * 1024 /\
    List.length (Spec.reads (Read.trace s)) = 8%nat /\
    Read.cond 4096 s = false.
Proof.
  assert (B : 0 = 0 \/ 0 = 1) by (left; reflexivity).
  assert (O : fopen_w_ok Sample.blank = true) by reflexivity.
  assert (R : forall a, read_error Sample.blank FROM_ROM a = false)
    by (intros a; reflexivity).
  assert (F : forall o, fwrite_error Sample.blank o = false)
    by (intros o; reflexivity).
  assert (C : cart Sample.blank FROM_ROM (to_uint (0 * BANK_SIZE) + HEADER_ROMSIZE)
              = x00) by reflexivity.
  split; [exact B|]. split; [exact O|]. split; [exact R|]. split; [exact F|].
  split; [exact C|].
  exact (proj2 (rom_read_32k Sample.blank 0 B O R F C)).
Defined.

(** C4: in a read session the [switch] on the size byte is evaluated at most
    once. When it was not evaluated the bound is the limit of the space; when
    it was, the space is ROM and the bound is what that one byte decodes to,
    the whole bank for a code that is not recognised (and for a byte that is
    not in the block). Once [untilset] is set, an iteration changes neither
    the bound nor [untilset] and does not evaluate the [switch]. *)
Theorem narrowing_once (w : world) (space : space_t) (base blocksize : Z) :
  0 < blocksize <= INT_MAX ->
  let s := snd (Read.session w space base blocksize) in
  (List.length (Spec.switches (Read.trace s)) <= 1)%nat /\
  (Spec.switches (Read.trace s) = [] -> Read.readuntil s = limits space) /\
  (forall index code,
     Spec.switches (Read.trace s) = [(index, code)] ->
     space = FROM_ROM /\
     Read.readuntil s
     = match code with
       | Some c => Read.narrow (byte_val c) BANK_SIZE
       | None => BANK_SIZE
       end) /\
  (forall index c,
     Spec.switches (Read.trace s) = [(index, Some c)] ->
     Header.rom_size_kb (byte_val c) = None ->
     Read.readuntil s = BANK_SIZE) /\
  (forall s0, Read.untilset s0 <> 0 ->
     match Read.body w space base blocksize s0 with
     | Next s' | Stop _ s' =>
         Read.readuntil s' = Read.readuntil s0 /\
         Read.untilset s' = Read.untilset s0 /\
         Spec.switches (Read.trace s') = Spec.switches (Read.trace s0)
     end).
Proof.
  intros Hbs s.
  destruct (session_post w space base blocksize Hbs) as (_ & _ & _ & Hn).
  fold s in Hn.
  assert (Hcases :
    (Spec.switches (Read.trace s) = [] /\ Read.readuntil s = limits space) \/
    (exists index code,
       Spec.switches (Read.trace s) = [(index, code)] /\ space = FROM_ROM /\
       Read.readuntil s
       = match code with
         | Some c => Read.narrow (byte_val c) BANK_SIZE
         | None => BANK_SIZE
         end)).
  { assert (Hnarrow :
      Invariant.not_narrowed space s \/ Invariant.narrowed space blocksize s ->
      (Spec.switches (Read.trace s) = [] /\ Read.readuntil s = limits space) \/
      (exists index code,
         Spec.switches (Read.trace s) = [(index, code)] /\ space = FROM_ROM /\
         Read.readuntil s
         = match code with
           | Some c => Read.narrow (byte_val c) BANK_SIZE
           | None => BANK_SIZE
           end)).
    { intros [(_ & Hs & Hr)|(_ & Hsp & i & c & Hs & Hr & _)]; [now left|right].
      exists i, (Some c). rewrite Hsp in Hr. now repeat split. }
    destruct (fst (Read.session w space base blocksize));
      try (apply Hnarrow, Hn).
    destruct Hn as (_ & Hsp & Hs & Hr & _). right.
    exists blocksize, None. rewrite Hsp in Hr. now repeat split. }
  split; [|split; [|split; [|split]]].
  - destruct Hcases as [(Hs & _)|(i & c & Hs & _)]; rewrite Hs; cbn; lia.
  - intros Hs. destruct Hcases as [(_ & Hr)|(i & c & Hs' & _)];
      [assumption|congruence].
  - intros index code Hs.
    destruct Hcases as [(Hs' & _)|(i & c & Hs' & Hsp & Hr)]; [congruence|].
    rewrite Hs in Hs'. injection Hs' as _ <-. now split.
  - intros index c Hs Hunknown.
    destruct Hcases as [(Hs' & _)|(i & c' & Hs' & Hsp & Hr)]; [congruence|].
    rewrite Hs in Hs'. injection Hs' as _ <-.
    rewrite Hr. now apply narrow_unknown.
  - intros s0 Hu. now apply body_after_narrowing.
Qed.

Lemma narrowing_once_witness :
  0 < 4096 <= INT_MAX /\
  let s := snd (Read.session Sample.blank FROM_ROM 0 4096) in
  (List.length (Spec.switches (Read.trace s)) <= 1)%nat /\
  (Spec.switches (Read.trace s) = [] -> Read.readuntil s = limits FROM_ROM) /\
  (forall index code,
     Spec.switches (Read.trace s) = [(index, code)] ->
     FROM_ROM = FROM_ROM /\
     Read.readuntil s
     = match code with
       | Some c => Read.narrow (byte_val c) BANK_SIZE
       | None => BANK_SIZE
       end) /\
  (forall index c,
     Spec.switches (Read.trace s) = [(index, Some c)] ->
     Header.rom_size_kb (byte_val c) = None ->
     Read.readuntil s = BANK_SIZE) /\
  (forall s0, Read.untilset s0 <> 0 ->
     match Read.body Sample.blank FROM_ROM 0 4096 s0 with
     | Next s' | Stop _ s' =>
         Read.readuntil s' = Read.readuntil s0 /\
         Read.untilset s' = Read.untilset s0 /\
         Spec.switches (Read.trace s') = Spec.switches (Read.trace s0)
     end).
Proof.
  assert (B : 0 < 4096 <= INT_MAX) by (unfold INT_MAX; lia).
  split; [exact B|].
  exact (narrowing_once Sample.blank FROM_ROM 0 4096 B).
Defined.

Lemma too_large_spec (size : Z) (space : space_t) :
  Write.too_large size space = true <->
  (4 * 1024 * 1024 < size /\ space = TO_ROM) \/
  (128 * 1024 < size /\ space = TO_SRAM).
Proof.
  unfold Write.too_large, TO_ROM, TO_SRAM. rewrite !Z.gtb_ltb.
  destruct (Z.ltb_spec (4 * 1024 * 1024) size);
    destruct (Z.ltb_spec (128 * 1024) size);
    destruct space; cbn [andb space_eqb]; split; intros Hx;
    try reflexivity; try discriminate; try lia;
    try (left; split; [lia|reflexivity]);
    try (right; split; [lia|reflexivity]);
    destruct Hx as [[? ?]|[? ?]]; try lia; discriminate.
Qed.


(** The size test on the size main measures: with [size] the length of the
    input file as main has it (the
    result of ftell, in an int), a write session with [size] above 4 MiB for
    ROM space, or above 128 KiB for SRAM space, ends in [err] with no device
    call made and an offset of 0; any other write session is the transfer
    loop run from offset 0 on the whole file. *)
Theorem write_size_check (w : world) (space : space_t) (base blocksize : Z)
  (file : list byte) :
  input w = Some file ->
  ((4 * 1024 * 1024 < Write.file_size file /\ space = TO_ROM) \/
   (128 * 1024 < Write.file_size file /\ space = TO_SRAM) ->
   exists s, Write.session w space base blocksize = (Fatal, s) /\
     Write.trace s = [] /\ Spec.writes (Write.trace s) = [] /\
     Write.offset s = 0) /\
  (~ ((4 * 1024 * 1024 < Write.file_size file /\ space = TO_ROM) \/
      (128 * 1024 < Write.file_size file /\ space = TO_SRAM)) ->
   Write.session w space base blocksize
   = Write.loop (Write.fuel space blocksize) w space base blocksize
       (Write.init file)).
Proof.
  intros Hin. unfold Write.session. rewrite Hin.
  pose proof (too_large_spec (Write.file_size file) space) as Hspec.
  destruct (Write.too_large (Write.file_size file) space); split.
  - intros _. exists (Write.init file). now repeat split.
  - intros Hno. exfalso. apply Hno, Hspec. reflexivity.
  - intros Hyes. apply Hspec in Hyes. discriminate.
  - intros _. reflexivity.
Qed.

Lemma write_size_check_witness :
  input (Sample.world_of x00 (Some Sample.big_save)) = Some Sample.big_save /\
  ((4 * 1024 * 1024 < Write.file_size Sample.big_save /\ TO_SRAM = TO_ROM) \/
   (128 * 1024 < Write.file_size Sample.big_save /\ TO_SRAM = TO_SRAM)) /\
  exists s,
    Write.session (Sample.world_of x00 (Some Sample.big_save)) TO_SRAM 0 32
    = (Fatal, s) /\
    Write.trace s = [] /\ Spec.writes (Write.trace s) = [] /\
    Write.offset s = 0.
Proof.
  assert (I : input (Sample.world_of x00 (Some Sample.big_save))
              = Some Sample.big_save) by reflexivity.
  assert (L : 128 * 1024 < Write.file_size Sample.big_save)
    by (vm_compute; reflexivity).
  assert (T : (4 * 1024 * 1024 < Write.file_size Sample.big_save
               /\ TO_SRAM = TO_ROM) \/
              (128 * 1024 < Write.file_size Sample.big_save
               /\ TO_SRAM = TO_SRAM))
    by (right; split; [exact L|reflexivity]).
  split; [exact I|]. split; [exact T|].
  exact (proj1 (write_size_check (Sample.world_of x00 (Some Sample.big_save))
                  TO_SRAM 0 32 Sample.big_save I) T).
Defined.

(** A file within the cap goes through the loop: one block of 32 bytes is
    written to the cart. *)
Example write_small_rom :
  let r := Write.session (Sample.world_of x00 (Some Sample.small_rom)) TO_ROM 0 32 in
  fst r = Completed /\ Write.offset (snd r) = 32 /\
  Spec.writes (Write.trace (snd r)) = [(TO_ROM, 0, 32)].
Proof.
  cbv zeta. repeat split; vm_compute; reflexivity.
Qed.

(** ** main *)

(** In read and write mode main is the session of the resolved space. *)
Lemma main_sessions (opts : options_t) (w : world) (sp : space_t) :
  ems_init_ok w = true -> malloc_ok w = true ->
  resolve_space opts = Some sp ->
  (mode opts = MODE_READ ->
   main opts w
   = (fst (Read.session w sp (to_uint (bank opts * BANK_SIZE)) (blocksize opts)),
      ReadSession
        (snd (Read.session w sp (to_uint (bank opts * BANK_SIZE)) (blocksize opts)))))
  /\
  (mode opts = MODE_WRITE ->
   main opts w
   = (fst (Write.session w sp (to_uint (bank opts * BANK_SIZE)) (blocksize opts)),
      WriteSession
        (snd (Write.session w sp (to_uint (bank opts * BANK_SIZE)) (blocksize opts))))).
Proof.
  intros Hi Hm Hs. unfold main. rewrite Hi, Hm, Hs. cbn [negb].
  split; intros Hmode; rewrite Hmode; cbn [Z.eqb MODE_READ MODE_WRITE Pos.eqb].
  - now destruct (Read.session _ _ _ _).
  - now destruct (Write.session _ _ _ _).
Qed.

(** A name shorter than four characters and no forced space: main reads
    outside the name before any transfer. *)
Example main_short_name :
  main (mkOptions 0 BLOCKSIZE_READ MODE_READ (Some "a.b"%string) 0 SPACE_UNSET)
    Sample.blank
  = (Undefined, NoSession).
Proof. reflexivity. Qed.

(** With the options get_options lets through, the model of main never runs
    out of iterations: every run ends by itself. *)
Lemma main_ends (opts : options_t) (w : world) :
  get_options_post opts -> fst (main opts w) <> OutOfFuel.
Proof.
  intros (Hmode & _ & Hbs & Hfile). unfold main.
  destruct (ems_init_ok w); cbn [negb]; [|discriminate].
  destruct (malloc_ok w); cbn [negb]; [|discriminate].
  destruct (resolve_space opts) as [sp|]; [|discriminate].
  destruct (Z.eqb_spec (mode opts) MODE_READ) as [Er|Nr].
  - assert (Hpos : 0 < blocksize opts <= INT_MAX)
      by (destruct Hfile as [_ ?]; [rewrite Er; discriminate|lia]).
    pose proof (session_post w sp (to_uint (bank opts * BANK_SIZE))
                  (blocksize opts) Hpos) as (_ & Hf & _).
    now destruct (Read.session _ _ _ _).
  - destruct (Z.eqb_spec (mode opts) MODE_WRITE) as [Ew|Nw].
    + assert (Hpos : 0 < blocksize opts <= INT_MAX)
        by (destruct Hfile as [_ ?]; [rewrite Ew; discriminate|lia]).
      pose proof (write_session_spec w sp (to_uint (bank opts * BANK_SIZE))
                    (blocksize opts) Hpos) as (_ & Hf).
      now destruct (Write.session _ _ _ _).
    + destruct (mode opts =? MODE_TITLE); [|discriminate].
      unfold title_session.
      destruct (ems_read w FROM_ROM 0 512); [|discriminate].
      destruct (Header.header_info l); [|discriminate].
      destruct (ems_read w FROM_ROM BANK_SIZE 512); [|discriminate].
      destruct (Header.header_info l0); discriminate.
Qed.

(** * Further properties of the code *)

(** ** header_info *)

Lemma chk_loop_short (n : nat) (i acc : Z) (buf : list byte) :
  (1 <= n)%nat -> Z.of_nat (List.length buf) < i + Z.of_nat n ->
  Header.chk_loop n i acc buf = None.
Proof.
  revert i acc; induction n as [|n IH]; intros i acc Hn Hlen; [lia|].
  cbn [Header.chk_loop].
  destruct (zth buf i) as [b|] eqn:Hb; [|reflexivity].
  apply zth_range in Hb. apply IH; lia.
Qed.

(** What a report of header_info says about the reads that produced it. *)
Lemma header_info_inv (buf : list byte) (r : Header.report) :
  Header.header_info buf = Some r ->
  exists t0 code,
    zth buf HEADER_TITLE = Some t0 /\
    Header.title_none r = (byte_val t0 =? 0) /\
    Header.title_loop 16 HEADER_TITLE [] buf = Some (Header.title r) /\
    Header.hardware_support buf = Some (Header.hardware r) /\
    zth buf HEADER_ROMSIZE = Some code /\
    Header.rom_kb r = Header.rom_size_kb (byte_val code).
Proof.
  unfold Header.header_info. intros H.
  destruct (zth buf HEADER_TITLE) as [t0|]; [|discriminate].
  destruct (Header.title_loop 16 HEADER_TITLE [] buf) as [ttl|]; [|discriminate].
  destruct (Header.logo_loop (Z.to_nat 48) 0 buf) as [i|]; [|discriminate].
  destruct (Header.logo_verdict i 2) as [lg wb].
  destruct (Header.hardware_support buf) as [hw|]; [|discriminate].
  destruct (Header.checksum buf) as [chk|]; [|discriminate].
  destruct (zth buf HEADER_ROMSIZE) as [code|]; [|discriminate].
  injection H as <-. exists t0, code. repeat split.
Qed.

Lemma header_info_short (buf : list byte) :
  Z.of_nat (List.length buf) < 0x14E -> Header.header_info buf = None.
Proof.
  intros Hlen. unfold Header.header_info.
  destruct (zth buf HEADER_TITLE) as [t0|]; [|reflexivity].
  destruct (Header.title_loop 16 HEADER_TITLE [] buf) as [ttl|]; [|reflexivity].
  destruct (Header.logo_loop (Z.to_nat 48) 0 buf) as [i|]; [|reflexivity].
  destruct (Header.logo_verdict i 2) as [lg wb].
  destruct (Header.hardware_support buf) as [hw|]; [|reflexivity].
  unfold Header.checksum. rewrite chk_loop_short; [reflexivity| |].
  - unfold HEADER_CHKSUM, HEADER_TITLE; lia.
  - unfold HEADER_CHKSUM, HEADER_TITLE; lia.
Qed.

(** X1: header_info reads the buffer up to offset 0x14D in every run: it is
    defined on the buffers of at least 0x14E bytes and reads outside every
    shorter one. *)
Theorem header_info_defined_iff (buf : list byte) :
  Header.header_info buf = None <-> Z.of_nat (List.length buf) < 0x14E.
Proof.
  split.
  - intros Hnone.
    destruct (Z.lt_ge_cases (Z.of_nat (List.length buf)) 0x14E) as [Hlt|Hge];
      [assumption|].
    destruct (header_info_spec buf) as (r & _ & _ & Hr & _);
      [unfold HEADER_CHKSUM; lia|congruence].
  - apply header_info_short.
Qed.

(** X2: the hardware line follows a table of five cases: "CGB" when bits
    0x80 and 0x40 of the CGB flag are both set, whatever the SGB flag; with
    bit 0x80 alone, "DMG <+CGB, +SGB>" or "DMG <+CGB>" as the SGB flag is
    0x03 or not; without bit 0x80, "DMG <+SGB>" or "DMG". The message
    "CGB <+SGB>, not real option set" is never printed. *)
Theorem hardware_table (buf : list byte) (r : Header.report) :
  Header.header_info buf = Some r ->
  Header.hardware r <> Header.HwCGB_SGB /\
  exists cgb sgb,
    zth buf HEADER_CGBFLAG = Some cgb /\ zth buf HEADER_SGBFLAG = Some sgb /\
    Header.hardware r
    = if negb (Z.land (byte_val cgb) 128 =? 0)
      then if negb (Z.land (byte_val cgb) 64 =? 0) then Header.HwCGB
           else if byte_val sgb =? 0x03 then Header.HwDMG_CGB_SGB
                else Header.HwDMG_CGB
      else if byte_val sgb =? 0x03 then Header.HwDMG_SGB else Header.HwDMG.
Proof.
  intros Hr.
  assert (Hlen : ~ Z.of_nat (List.length buf) < 0x14E).
  { intros Hlt. apply header_info_short in Hlt. congruence. }
  destruct (header_info_inv buf r Hr) as (_ & _ & _ & _ & _ & Hhw & _).
  destruct (zth_defined buf HEADER_CGBFLAG) as [cgb Hcgb];
    [unfold HEADER_CGBFLAG; lia|].
  destruct (zth_defined buf HEADER_SGBFLAG) as [sgb Hsgb];
    [unfold HEADER_SGBFLAG; lia|].
  unfold Header.hardware_support, Header.and_then in Hhw.
  rewrite Hcgb, Hsgb in Hhw.
  assert (E : Header.hardware r
    = if negb (Z.land (byte_val cgb) 128 =? 0)
      then if negb (Z.land (byte_val cgb) 64 =? 0) then Header.HwCGB
           else if byte_val sgb =? 0x03 then Header.HwDMG_CGB_SGB
                else Header.HwDMG_CGB
      else if byte_val sgb =? 0x03 then Header.HwDMG_SGB else Header.HwDMG).
  { destruct (negb (Z.land (byte_val cgb) 128 =? 0));
      destruct (negb (Z.land (byte_val cgb) 64 =? 0));
      destruct (byte_val sgb =? 3); cbn in Hhw; now injection Hhw. }
  split.
  - rewrite E.
    destruct (negb (Z.land (byte_val cgb) 128 =? 0));
      destruct (negb (Z.land (byte_val cgb) 64 =? 0));
      destruct (byte_val sgb =? 3); discriminate.
  - exists cgb, sgb. now repeat split.
Qed.

Lemma hardware_table_witness :
  exists r, Header.header_info Sample.good_header = Some r /\
    Header.hardware r <> Header.HwCGB_SGB.
Proof.
  destruct (header_info_spec Sample.good_header) as (r & _ & _ & Hr & _).
  - vm_compute. reflexivity.
  - exists r. split; [exact Hr|].
    exact (proj1 (hardware_table Sample.good_header r Hr)).
Defined.

Lemma title_loop_until_nul (n : nat) (i : Z) (acc buf : list byte) :
  0 <= i -> i + Z.of_nat n <= Z.of_nat (List.length buf) ->
  Header.title_loop n i acc buf
  = Some (acc ++ Facts.until_nul (firstn n (skipn (Z.to_nat i) buf))).
Proof.
  revert i acc; induction n as [|n IH]; intros i acc Hi Hn.
  - cbn. now rewrite app_nil_r.
  - destruct (zth_defined buf i) as [b Hb]; [lia|].
    cbn [Header.title_loop]. rewrite Hb, (zth_skipn _ _ _ Hb).
    cbn [firstn Facts.until_nul].
    destruct (byte_val b =? 0); [now rewrite app_nil_r|].
    rewrite IH by lia. now rewrite <- app_assoc.
Qed.

Lemma until_nul_facts (l : list byte) :
  (List.length (Facts.until_nul l) <= List.length l)%nat /\
  Forall (fun b => byte_val b <> 0) (Facts.until_nul l).
Proof.
  induction l as [|b l [IHl IHf]]; cbn [Facts.until_nul List.length];
    [split; [lia|constructor]|].
  destruct (Z.eqb_spec (byte_val b) 0); cbn [List.length];
    split; try lia; now constructor.
Qed.

(** X3: the title printed is the title field, the 16 bytes from offset
    0x134, cut at its first zero byte: at most 16 characters, none of them
    NUL; "NONE" is printed exactly when this title is empty. *)
Theorem title_printed (buf : list byte) :
  0x14E <= Z.of_nat (List.length buf) ->
  exists r, Header.header_info buf = Some r /\
    Header.title r
    = Facts.until_nul (firstn 16 (skipn (Z.to_nat HEADER_TITLE) buf)) /\
    (List.length (Header.title r) <= 16)%nat /\
    Forall (fun b => byte_val b <> 0) (Header.title r) /\
    (Header.title_none r = true <-> Header.title r = []).
Proof.
  intros Hlen.
  destruct (header_info_spec buf) as (r & _ & _ & Hr & _);
    [unfold HEADER_CHKSUM; lia|].
  destruct (header_info_inv buf r Hr) as (t0 & _ & Ht0 & Hnone & Httl & _).
  rewrite title_loop_until_nul in Httl by (unfold HEADER_TITLE; lia).
  rewrite app_nil_l in Httl.
  assert (Ht : Header.title r
               = Facts.until_nul (firstn 16 (skipn (Z.to_nat HEADER_TITLE) buf)))
    by congruence.
  exists r. split; [assumption|]. rewrite Ht.
  pose proof (until_nul_facts (firstn 16 (skipn (Z.to_nat HEADER_TITLE) buf)))
    as [Hl Hf].
  split; [reflexivity|]. split; [rewrite length_firstn in Hl; lia|].
  split; [assumption|].
  rewrite Hnone, (zth_skipn _ _ _ Ht0). cbn [firstn Facts.until_nul].
  destruct (byte_val t0 =? 0); split; intros H;
    try reflexivity; discriminate.
Qed.

Lemma title_printed_witness :
  0x14E <= Z.of_nat (List.length Sample.good_header) /\
  exists r, Header.header_info Sample.good_header = Some r /\
    Header.title r
    = Facts.until_nul (firstn 16 (skipn (Z.to_nat HEADER_TITLE) Sample.good_header)) /\
    (List.length (Header.title r) <= 16)%nat /\
    Forall (fun b => byte_val b <> 0) (Header.title r) /\
    (Header.title_none r = true <-> Header.title r = []).
Proof.
  assert (L : 0x14E <= Z.of_nat (List.length Sample.good_header))
    by (vm_compute; intro; discriminate).
  split; [exact L|]. exact (title_printed Sample.good_header L).
Defined.

(** X4: the two ROM size switches agree: the bound the read loop sets is
    1024 times the number of KB header_info prints for the same code, and
    the bound is left alone exactly for the codes header_info calls unknown.
    A decoded size is between 32 KB and the 4096 KB of a bank. *)
Theorem rom_size_switches_agree (code readuntil : Z) :
  Read.narrow code readuntil
  = match Header.rom_size_kb code with
    | Some kb => kb * 1024
    | None => readuntil
    end /\
  (forall kb, Header.rom_size_kb code = Some kb ->
     32 <= kb /\ kb * 1024 <= BANK_SIZE).
Proof.
  unfold Read.narrow, Header.rom_size_kb, BANK_SIZE.
  destruct (Z.leb_spec 0 code); destruct (Z.leb_spec code 7); cbn [andb];
    try (destruct (code =? 0x52); [split; [reflexivity|intros kb E; injection E as <-; lia]|];
         destruct (code =? 0x53); [split; [reflexivity|intros kb E; injection E as <-; lia]|];
         destruct (code =? 0x54); [split; [reflexivity|intros kb E; injection E as <-; lia]|];
         split; [reflexivity|discriminate]).
  assert (C : code = 0 \/ code = 1 \/ code = 2 \/ code = 3 \/ code = 4
              \/ code = 5 \/ code = 6 \/ code = 7) by lia.
  destruct C as [->|[->|[->|[->|[->|[->|[->| ->]]]]]]];
    (split; [reflexivity|intros kb E; injection E as <-; cbn; lia]).
Qed.

(** ** get_options *)

Lemma last_cons {A : Type} (x d : A) (l : list A) :
  last (x :: l) d = last l x.
Proof.
  revert x d; induction l as [|y l IH]; intros x d; [reflexivity|].
  change (last (x :: y :: l) d) with (last (y :: l) d).
  rewrite (IH y d), (IH y x). reflexivity.
Qed.

Lemma option_loop_parsed (args : list GetOpt.opt) (o o' : options_t) :
  GetOpt.option_loop args o = GetOpt.Parsed o' ->
  Forall Facts.accepted args /\
  match Facts.modes args with
  | [] => mode o' = mode o
  | [m] => mode o = 0 /\ mode o' = m
  | _ => False
  end /\
  match Facts.spaces args with
  | [] => space o' = space o
  | [sp] => space o = SPACE_UNSET /\ space o' = sp
  | _ => False
  end /\
  blocksize o' = last (Facts.blocksizes args) (blocksize o) /\
  bank o' = last (map (fun v => v - 1) (Facts.banks args)) (bank o) /\
  file o' = file o.
Proof.
  revert o; induction args as [|c args IH]; intros o H.
  - injection H as <-. repeat split. constructor.
  - destruct c; cbn [GetOpt.option_loop] in H; try discriminate.
    + (* -v *)
      apply IH in H. destruct H as (Ha & Hm & Hs & Hb & Hk & Hf).
      repeat split; try assumption. constructor; [exact I|assumption].
    + (* --read *)
      destruct (Z.eqb_spec (mode o) 0) as [E|NE]; [|discriminate].
      apply IH in H. destruct H as (Ha & Hm & Hs & Hb & Hk & Hf).
      cbn [Facts.modes Facts.spaces Facts.blocksizes Facts.banks].
      cbn [GetOpt.set_mode mode space blocksize bank file] in *.
      repeat split; try assumption; [constructor; [exact I|assumption]|].
      destruct (Facts.modes args) as [|m [|m' l]];
        [now split|destruct Hm as [Hm _]; discriminate|contradiction].
    + (* --write *)
      destruct (Z.eqb_spec (mode o) 0) as [E|NE]; [|discriminate].
      apply IH in H. destruct H as (Ha & Hm & Hs & Hb & Hk & Hf).
      cbn [Facts.modes Facts.spaces Facts.blocksizes Facts.banks].
      cbn [GetOpt.set_mode mode space blocksize bank file] in *.
      repeat split; try assumption; [constructor; [exact I|assumption]|].
      destruct (Facts.modes args) as [|m [|m' l]];
        [now split|destruct Hm as [Hm _]; discriminate|contradiction].
    + (* --title *)
      destruct (Z.eqb_spec (mode o) 0) as [E|NE]; [|discriminate].
      apply IH in H. destruct H as (Ha & Hm & Hs & Hb & Hk & Hf).
      cbn [Facts.modes Facts.spaces Facts.blocksizes Facts.banks].
      cbn [GetOpt.set_mode mode space blocksize bank file] in *.
      repeat split; try assumption; [constructor; [exact I|assumption]|].
      destruct (Facts.modes args) as [|m [|m' l]];
        [now split|destruct Hm as [Hm _]; discriminate|contradiction].
    + (* --blocksize *)
      destruct (Z.leb_spec optval 0) as [E|NE]; [discriminate|].
      apply IH in H. destruct H as (Ha & Hm & Hs & Hb & Hk & Hf).
      cbn [Facts.modes Facts.spaces Facts.blocksizes Facts.banks].
      cbn [GetOpt.set_blocksize mode space blocksize bank file] in *.
      repeat split; try assumption; [constructor; [exact NE|assumption]|].
      rewrite Hb. symmetry. apply last_cons.
    + (* --bank *)
      rewrite Z.gtb_ltb in H.
      destruct (Z.ltb_spec optval 1) as [E|NE]; [discriminate|].
      destruct (Z.ltb_spec 2 optval) as [E2|NE2]; [discriminate|].
      cbn [orb] in H.
      apply IH in H. destruct H as (Ha & Hm & Hs & Hb & Hk & Hf).
      cbn [Facts.modes Facts.spaces Facts.blocksizes Facts.banks map].
      cbn [GetOpt.set_bank mode space blocksize bank file] in *.
      repeat split; try assumption;
        [constructor; [cbn [Facts.accepted]; lia|assumption]|].
      rewrite Hk. symmetry. apply last_cons.
    + (* --save *)
      destruct (space o) eqn:E; cbn [space_eqb negb] in H; try discriminate.
      apply IH in H. destruct H as (Ha & Hm & Hs & Hb & Hk & Hf).
      cbn [Facts.modes Facts.spaces Facts.blocksizes Facts.banks].
      cbn [GetOpt.set_space mode space blocksize bank file] in *.
      repeat split; try assumption; [constructor; [exact I|assumption]|].
      destruct (Facts.spaces args) as [|m [|m' l]];
        [now split|destruct Hs as [Hs _]; discriminate|contradiction].
    + (* --rom *)
      destruct (space o) eqn:E; cbn [space_eqb negb] in H; try discriminate.
      apply IH in H. destruct H as (Ha & Hm & Hs & Hb & Hk & Hf).
      cbn [Facts.modes Facts.spaces Facts.blocksizes Facts.banks].
      cbn [GetOpt.set_space mode space blocksize bank file] in *.
      repeat split; try assumption; [constructor; [exact I|assumption]|].
      destruct (Facts.spaces args) as [|m [|m' l]];
        [now split|destruct Hs as [Hs _]; discriminate|contradiction].
Qed.

Lemma option_loop_accepts (args : list GetOpt.opt) (o : options_t) :
  Forall Facts.accepted args ->
  (Facts.modes args = [] \/
   mode o = 0 /\ List.length (Facts.modes args) = 1%nat) ->
  (Facts.spaces args = [] \/
   space o = SPACE_UNSET /\ List.length (Facts.spaces args) = 1%nat) ->
  exists o', GetOpt.option_loop args o = GetOpt.Parsed o'.
Proof.
  revert o; induction args as [|c args IH]; intros o Ha Hm Hs.
  - now exists o.
  - inversion Ha as [|c' args' Hc Ha']; subst.
    destruct c; cbn [Facts.accepted] in Hc; try contradiction;
      cbn [GetOpt.option_loop Facts.modes Facts.spaces] in *.
    + apply IH; assumption.
    + destruct Hm as [Hm|[Hm Hl]]; [discriminate|]. rewrite Hm. cbn [Z.eqb negb].
      apply IH; try assumption.
      left. cbn [List.length] in Hl.
      destruct (Facts.modes args); [reflexivity|discriminate].
    + destruct Hm as [Hm|[Hm Hl]]; [discriminate|]. rewrite Hm. cbn [Z.eqb negb].
      apply IH; try assumption.
      left. cbn [List.length] in Hl.
      destruct (Facts.modes args); [reflexivity|discriminate].
    + destruct Hm as [Hm|[Hm Hl]]; [discriminate|]. rewrite Hm. cbn [Z.eqb negb].
      apply IH; try assumption.
      left. cbn [List.length] in Hl.
      destruct (Facts.modes args); [reflexivity|discriminate].
    + destruct (Z.leb_spec optval 0); [lia|]. apply IH; assumption.
    + rewrite Z.gtb_ltb.
      destruct (Z.ltb_spec optval 1); [lia|].
      destruct (Z.ltb_spec 2 optval); [lia|]. cbn [orb]. apply IH; assumption.
    + destruct Hs as [Hs|[Hs Hl]]; [discriminate|]. rewrite Hs. cbn [space_eqb negb].
      apply IH; try assumption.
      left. cbn [List.length] in Hl.
      destruct (Facts.spaces args); [reflexivity|discriminate].
    + destruct Hs as [Hs|[Hs Hl]]; [discriminate|]. rewrite Hs. cbn [space_eqb negb].
      apply IH; try assumption.
      left. cbn [List.length] in Hl.
      destruct (Facts.spaces args); [reflexivity|discriminate].
Qed.

Lemma modes_values (args : list GetOpt.opt) :
  Forall (fun m => m = MODE_READ \/ m = MODE_WRITE \/ m = MODE_TITLE)
    (Facts.modes args).
Proof.
  induction args as [|c args IH]; [constructor|].
  destruct c; cbn [Facts.modes]; try assumption; constructor; auto.
Qed.

Lemma last_Forall {A : Type} (P : A -> Prop) (l : list A) (d : A) :
  Forall P l -> P d -> P (last l d).
Proof.
  intros Hl Hd; induction Hl as [|x l Hx Hl IH]; [assumption|].
  rewrite last_cons. clear IH. revert x Hx.
  induction Hl as [|y l Hy Hl IH]; intros x Hx; [assumption|].
  rewrite last_cons. now apply IH.
Qed.

Lemma option_values (args : list GetOpt.opt) :
  Forall Facts.accepted args -> Forall Facts.int_arg args ->
  Forall (fun v => 0 < v <= INT_MAX) (Facts.blocksizes args) /\
  Forall (fun v => v = 0 \/ v = 1) (map (fun v => v - 1) (Facts.banks args)).
Proof.
  intros Ha Hi; induction Ha as [|c args Hc Ha IH];
    [split; constructor|].
  inversion Hi as [|c' args' Hci Hi']; subst.
  destruct (IH Hi') as [IHb IHk].
  destruct c; cbn [Facts.blocksizes Facts.banks map Facts.accepted Facts.int_arg] in *;
    split; try assumption; constructor; try assumption; lia.
Qed.

(** What get_options leaves in [opts] when it returns. *)
Lemma get_options_parsed (args : list GetOpt.opt) (rest : list string)
  (opts : options_t) :
  GetOpt.get_options args rest = GetOpt.Parsed opts ->
  Forall Facts.accepted args /\
  Facts.modes args = [mode opts] /\
  (Facts.spaces args = [] /\ space opts = SPACE_UNSET \/
   Facts.spaces args = [space opts]) /\
  bank opts = last (map (fun v => v - 1) (Facts.banks args)) 0 /\
  (mode opts = MODE_TITLE /\ file opts = None /\
   blocksize opts = last (Facts.blocksizes args) 0 \/
   (mode opts = MODE_READ \/ mode opts = MODE_WRITE) /\
   (exists name tl, rest = name :: tl /\ file opts = Some name) /\
   blocksize opts
   = if last (Facts.blocksizes args) 0 =? 0
     then (if mode opts =? MODE_READ then BLOCKSIZE_READ else BLOCKSIZE_WRITE)
     else last (Facts.blocksizes args) 0).
Proof.
  unfold GetOpt.get_options. intros H.
  destruct (GetOpt.option_loop args GetOpt.defaults) as [o1|] eqn:Hloop;
    [|discriminate].
  destruct (option_loop_parsed args GetOpt.defaults o1 Hloop)
    as (Ha & Hm & Hs & Hb & Hk & Hf).
  cbn [GetOpt.defaults mode space blocksize bank file] in Hm, Hs, Hb, Hk, Hf.
  pose proof (modes_values args) as Hmv.
  destruct (Z.eqb_spec (mode o1) 0) as [E0|N0]; [discriminate|].
  assert (Hmode : Facts.modes args = [mode o1] /\
                  (mode o1 = MODE_READ \/ mode o1 = MODE_WRITE \/ mode o1 = MODE_TITLE)).
  { destruct (Facts.modes args) as [|m [|m' l]]; [congruence| |contradiction].
    destruct Hm as [_ Hm]. inversion Hmv; subst. now split. }
  destruct Hmode as [Hmodes Hval].
  assert (Hspace : Facts.spaces args = [] /\ space o1 = SPACE_UNSET \/
                   Facts.spaces args = [space o1]).
  { destruct (Facts.spaces args) as [|sp [|sp' l]]; [now left| |contradiction].
    destruct Hs as [_ Hs]. right. now rewrite Hs. }
  assert (Hfinish : forall o2 : options_t,
            mode o2 = mode o1 -> space o2 = space o1 -> bank o2 = bank o1 ->
            (mode o1 = MODE_TITLE /\ file o2 = None /\
             blocksize o2 = last (Facts.blocksizes args) 0 \/
             (mode o1 = MODE_READ \/ mode o1 = MODE_WRITE) /\
             (exists name tl, rest = name :: tl /\ file o2 = Some name) /\
             blocksize o2
             = if last (Facts.blocksizes args) 0 =? 0
               then (if mode o1 =? MODE_READ then BLOCKSIZE_READ
                     else BLOCKSIZE_WRITE)
               else last (Facts.blocksizes args) 0) ->
            GetOpt.Parsed o2 = GetOpt.Parsed opts ->
            Forall Facts.accepted args /\
            Facts.modes args = [mode opts] /\
            (Facts.spaces args = [] /\ space opts = SPACE_UNSET \/
             Facts.spaces args = [space opts]) /\
            bank opts = last (map (fun v => v - 1) (Facts.banks args)) 0 /\
            (mode opts = MODE_TITLE /\ file opts = None /\
             blocksize opts = last (Facts.blocksizes args) 0 \/
             (mode opts = MODE_READ \/ mode opts = MODE_WRITE) /\
             (exists name tl, rest = name :: tl /\ file opts = Some name) /\
             blocksize opts
             = if last (Facts.blocksizes args) 0 =? 0
               then (if mode opts =? MODE_READ then BLOCKSIZE_READ
                     else BLOCKSIZE_WRITE)
               else last (Facts.blocksizes args) 0)).
  { intros o2 Hm2 Hs2 Hk2 Hcase Heq. injection Heq as <-.
    rewrite Hm2, Hs2, Hk2. repeat split; assumption. }
  assert (Hrw : mode o1 = MODE_READ \/ mode o1 = MODE_WRITE ->
            (mode o1 =? MODE_WRITE) || (mode o1 =? MODE_READ) = true).
  { intros [-> | ->]; reflexivity. }
  destruct Hval as [Er|[Ew|Et]].
  - (* read *)
    rewrite (Hrw (or_introl Er)) in H.
    destruct rest as [|name tl]; [discriminate|].
    change (blocksize (GetOpt.set_file o1 (Some name))) with (blocksize o1) in H.
    change (mode (GetOpt.set_file o1 (Some name))) with (mode o1) in H.
    rewrite Hb in H.
    destruct (last (Facts.blocksizes args) 0 =? 0) eqn:Eb;
      (apply Hfinish in H; [exact H|reflexivity|reflexivity|reflexivity|]);
      right; (split; [now left|]); (split; [now exists name, tl|]).
    + reflexivity.
    + exact Hb.
  - (* write *)
    rewrite (Hrw (or_intror Ew)) in H.
    destruct rest as [|name tl]; [discriminate|].
    change (blocksize (GetOpt.set_file o1 (Some name))) with (blocksize o1) in H.
    change (mode (GetOpt.set_file o1 (Some name))) with (mode o1) in H.
    rewrite Hb in H.
    destruct (last (Facts.blocksizes args) 0 =? 0) eqn:Eb;
      (apply Hfinish in H; [exact H|reflexivity|reflexivity|reflexivity|]);
      right; (split; [now right|]); (split; [now exists name, tl|]).
    + reflexivity.
    + exact Hb.
  - (* title *)
    rewrite Et in H.
    change ((MODE_TITLE =? MODE_WRITE) || (MODE_TITLE =? MODE_READ)) with false in H.
    apply Hfinish in H; [exact H|reflexivity|reflexivity|reflexivity|].
    left. repeat split; assumption.
Qed.

(** X5: get_options returns, instead of ending the process, exactly for the
    command lines with no --help, --version or unknown option, positive block
    sizes, banks 1 or 2, exactly one of --read, --write and --title, at most
    one of --save and --rom, and a file name unless the mode is --title. *)
Theorem get_options_returns (args : list GetOpt.opt) (rest : list string) :
  (exists opts, GetOpt.get_options args rest = GetOpt.Parsed opts) <->
  Forall Facts.accepted args /\
  List.length (Facts.modes args) = 1%nat /\
  (List.length (Facts.spaces args) <= 1)%nat /\
  (Facts.modes args = [MODE_TITLE] \/ rest <> []).
Proof.
  split.
  - intros (opts & H).
    destruct (get_options_parsed args rest opts H) as (Ha & Hm & Hs & _ & Hc).
    split; [assumption|]. split; [now rewrite Hm|]. split.
    + destruct Hs as [[-> _]| ->]; cbn; lia.
    + destruct Hc as [(Et & _)|(_ & (name & tl & -> & _) & _)];
        [left; now rewrite Hm, Et|right; discriminate].
  - intros (Ha & Hm & Hs & Hr).
    destruct (option_loop_accepts args GetOpt.defaults Ha) as [o1 Hloop].
    + right. now split.
    + destruct (Facts.spaces args) as [|sp [|sp' l]];
        [now left|right; now split|cbn in Hs; lia].
    + destruct (option_loop_parsed args GetOpt.defaults o1 Hloop)
        as (_ & Hm1 & _).
      pose proof (modes_values args) as Hmv.
      unfold GetOpt.get_options. rewrite Hloop.
      destruct (Facts.modes args) as [|m [|m' l]]; try discriminate.
      destruct Hm1 as [_ Hm1]. rewrite Hm1.
      inversion Hmv as [|m0 l0 Hval _]; subst m0 l0.
      destruct Hval as [-> | [-> | ->]]; cbn [Z.eqb MODE_READ MODE_WRITE MODE_TITLE Pos.eqb orb].
      * destruct Hr as [Hr|Hr]; [discriminate|].
        destruct rest as [|name tl]; [contradiction|].
        destruct (blocksize (GetOpt.set_file o1 (Some name)) =? 0); eauto.
      * destruct Hr as [Hr|Hr]; [discriminate|].
        destruct rest as [|name tl]; [contradiction|].
        destruct (blocksize (GetOpt.set_file o1 (Some name)) =? 0); eauto.
      * eauto.
Qed.

(** X6: what get_options leaves in [opts]: the mode of the one mode option;
    the space of --save or --rom, or none; the last --bank minus 1, or 0;
    in read and write mode the first argument that is not an option as the
    file, and the last --blocksize or else 4096 for a read and 32 for a
    write; in title mode no file and the last --blocksize or else 0. *)
Theorem get_options_values (args : list GetOpt.opt) (rest : list string)
  (opts : options_t) :
  GetOpt.get_options args rest = GetOpt.Parsed opts ->
  Facts.modes args = [mode opts] /\
  space opts = last (Facts.spaces args) SPACE_UNSET /\
  bank opts = last (map (fun v => v - 1) (Facts.banks args)) 0 /\
  file opts = (if mode opts =? MODE_TITLE then None else hd_error rest) /\
  blocksize opts
  = match Facts.blocksizes args with
    | [] => if mode opts =? MODE_READ then BLOCKSIZE_READ
            else if mode opts =? MODE_WRITE then BLOCKSIZE_WRITE
            else 0
    | _ :: _ => last (Facts.blocksizes args) 0
    end.
Proof.
  intros H.
  destruct (get_options_parsed args rest opts H) as (Ha & Hm & Hs & Hk & Hc).
  split; [assumption|]. split; [|split; [assumption|]].
  - destruct Hs as [[-> E]| ->]; [assumption|reflexivity].
  - assert (Hpos : Forall (fun v => 0 < v) (Facts.blocksizes args)).
    { clear -Ha. induction Ha as [|c args Hc Ha IH]; [constructor|].
      destruct c; cbn [Facts.blocksizes Facts.accepted] in *;
        try assumption. now constructor. }
    assert (Hlast : Facts.blocksizes args <> [] ->
                    (last (Facts.blocksizes args) 0 =? 0) = false).
    { intros Hne. apply Z.eqb_neq.
      destruct (Facts.blocksizes args) as [|v l]; [contradiction|].
      rewrite last_cons.
      inversion Hpos as [|v' l' Hv Hl]; subst.
      assert (0 < last l v) by (now apply last_Forall). lia. }
    destruct Hc as [(Et & Hf & Hb)|([Er|Ew] & (name & tl & -> & Hf) & Hb)].
    + rewrite Et. split; [assumption|]. rewrite Hb.
      now destruct (Facts.blocksizes args).
    + rewrite Er in *. split; [assumption|]. rewrite Hb.
      destruct (Facts.blocksizes args) as [|v l] eqn:E; [reflexivity|].
      now rewrite Hlast.
    + rewrite Ew in *. split; [assumption|]. rewrite Hb.
      destruct (Facts.blocksizes args) as [|v l] eqn:E; [reflexivity|].
      now rewrite Hlast.
Qed.

Lemma get_options_values_witness :
  GetOpt.get_options
    [GetOpt.Opt_b 2; GetOpt.Opt_w; GetOpt.Opt_S] ["game.sav"%string]
  = GetOpt.Parsed (mkOptions 0 32 MODE_WRITE (Some "game.sav"%string) 1 FROM_SRAM) /\
  Facts.modes [GetOpt.Opt_b 2; GetOpt.Opt_w; GetOpt.Opt_S] = [MODE_WRITE].
Proof.
  assert (H : GetOpt.get_options
                [GetOpt.Opt_b 2; GetOpt.Opt_w; GetOpt.Opt_S] ["game.sav"%string]
              = GetOpt.Parsed
                  (mkOptions 0 32 MODE_WRITE (Some "game.sav"%string) 1 FROM_SRAM))
    by reflexivity.
  split; [exact H|].
  exact (proj1 (get_options_values _ _ _ H)).
Defined.

(** X7: the options get_options returns satisfy what main relies on: one of
    the three modes, a bank of 0 or 1, a block size that is not negative,
    and in read and write mode a file name and a positive block size. *)
Theorem get_options_establishes_post (args : list GetOpt.opt)
  (rest : list string) (opts : options_t) :
  Forall Facts.int_arg args ->
  GetOpt.get_options args rest = GetOpt.Parsed opts ->
  get_options_post opts.
Proof.
  intros Hi H.
  destruct (get_options_parsed args rest opts H) as (Ha & Hm & _ & Hk & Hc).
  destruct (option_values args Ha Hi) as [Hbs Hbk].
  pose proof (modes_values args) as Hmv. rewrite Hm in Hmv.
  inversion Hmv as [|m l Hmode _]; subst m l.
  assert (Hb0 : 0 <= last (Facts.blocksizes args) 0 <= INT_MAX).
  { apply (last_Forall (fun v => 0 <= v <= INT_MAX)).
    - eapply Forall_impl; [|exact Hbs]. cbn. intros; lia.
    - unfold INT_MAX; lia. }
  unfold get_options_post. split; [assumption|]. split.
  - rewrite Hk. apply (last_Forall (fun v => v = 0 \/ v = 1)); [assumption|now left].
  - destruct Hc as [(Et & Hf & Hb)|(Hrw & (name & tl & _ & Hf) & Hb)].
    + split; [rewrite Hb; assumption|]. intros Hnt. contradiction.
    + assert (Hpos : 0 < blocksize opts <= INT_MAX).
      { rewrite Hb.
        destruct (Z.eqb_spec (last (Facts.blocksizes args) 0) 0); [|lia].
        destruct (mode opts =? MODE_READ);
          unfold BLOCKSIZE_READ, BLOCKSIZE_WRITE, INT_MAX; lia. }
      split; [lia|]. intros _. split; [congruence|lia].
Qed.

Lemma get_options_establishes_post_witness :
  Forall Facts.int_arg [GetOpt.Opt_r; GetOpt.Opt_s 512] /\
  GetOpt.get_options [GetOpt.Opt_r; GetOpt.Opt_s 512] ["dump.gb"%string]
  = GetOpt.Parsed (mkOptions 0 512 MODE_READ (Some "dump.gb"%string) 0 SPACE_UNSET) /\
  get_options_post (mkOptions 0 512 MODE_READ (Some "dump.gb"%string) 0 SPACE_UNSET).
Proof.
  assert (Hi : Forall Facts.int_arg [GetOpt.Opt_r; GetOpt.Opt_s 512]).
  { repeat constructor. cbn. unfold INT_MAX. lia. }
  assert (H : GetOpt.get_options [GetOpt.Opt_r; GetOpt.Opt_s 512] ["dump.gb"%string]
              = GetOpt.Parsed
                  (mkOptions 0 512 MODE_READ (Some "dump.gb"%string) 0 SPACE_UNSET))
    by reflexivity.
  split; [exact Hi|]. split; [exact H|].
  exact (get_options_establishes_post _ _ _ Hi H).
Defined.

Lemma option_loop_exit (args : list GetOpt.opt) (o : options_t) (code : Z) :
  GetOpt.option_loop args o = GetOpt.Exit code ->
  code = 1 \/ code = 0 /\ In GetOpt.Opt_V args.
Proof.
  revert o; induction args as [|c args IH]; intros o H; [discriminate|].
  assert (Hrec : forall o', GetOpt.option_loop args o' = GetOpt.Exit code ->
            code = 1 \/ code = 0 /\ In GetOpt.Opt_V (c :: args)).
  { intros o' H'. destruct (IH o' H') as [E|[E Hin]];
      [now left|right; split; [assumption|now right]]. }
  destruct c; cbn [GetOpt.option_loop] in H.
  - injection H as <-. now left.
  - injection H as <-. right. split; [reflexivity|now left].
  - now apply Hrec in H.
  - destruct (negb (mode o =? 0)); [injection H as <-; now left|now apply Hrec in H].
  - destruct (negb (mode o =? 0)); [injection H as <-; now left|now apply Hrec in H].
  - destruct (negb (mode o =? 0)); [injection H as <-; now left|now apply Hrec in H].
  - destruct (optval <=? 0); [injection H as <-; now left|now apply Hrec in H].
  - destruct ((optval <? 1) || (optval >? 2));
      [injection H as <-; now left|now apply Hrec in H].
  - destruct (negb (space_eqb (space o) SPACE_UNSET));
      [injection H as <-; now left|now apply Hrec in H].
  - destruct (negb (space_eqb (space o) SPACE_UNSET));
      [injection H as <-; now left|now apply Hrec in H].
  - injection H as <-. now left.
Qed.

(** The loop on a command line continues where the loop on its first
    options left [opts]. *)
Lemma option_loop_app (pre l : list GetOpt.opt) (o o1 : options_t) :
  GetOpt.option_loop pre o = GetOpt.Parsed o1 ->
  GetOpt.option_loop (pre ++ l) o = GetOpt.option_loop l o1.
Proof.
  revert o; induction pre as [|c pre IH]; intros o H.
  - injection H as <-. reflexivity.
  - destruct c; cbn [app GetOpt.option_loop] in *; try discriminate.
    + now apply IH.
    + destruct (negb (mode o =? 0)); [discriminate|now apply IH].
    + destruct (negb (mode o =? 0)); [discriminate|now apply IH].
    + destruct (negb (mode o =? 0)); [discriminate|now apply IH].
    + destruct (optval <=? 0); [discriminate|now apply IH].
    + destruct ((optval <? 1) || (optval >? 2)); [discriminate|now apply IH].
    + destruct (negb (space_eqb (space o) SPACE_UNSET)); [discriminate|now apply IH].
    + destruct (negb (space_eqb (space o) SPACE_UNSET)); [discriminate|now apply IH].
Qed.

(** The loop exits with 0 exactly at a --version that it reaches. *)
Lemma option_loop_version (args : list GetOpt.opt) (o : options_t) :
  GetOpt.option_loop args o = GetOpt.Exit 0 <->
  exists pre post o1,
    args = pre ++ GetOpt.Opt_V :: post /\
    GetOpt.option_loop pre o = GetOpt.Parsed o1.
Proof.
  split.
  - revert o; induction args as [|c args IH]; intros o H; [discriminate|].
    destruct c; cbn [GetOpt.option_loop] in H; try discriminate.
    + exists [], args, o. now split.
    + destruct (IH _ H) as (pre & post & o1 & -> & Hpre).
      exists (GetOpt.Opt_v :: pre), post, o1. split; [reflexivity|exact Hpre].
    + destruct (negb (mode o =? 0)) eqn:E; [discriminate|].
      destruct (IH _ H) as (pre & post & o1 & -> & Hpre).
      exists (GetOpt.Opt_r :: pre), post, o1. split; [reflexivity|].
      cbn [GetOpt.option_loop]. rewrite E. exact Hpre.
    + destruct (negb (mode o =? 0)) eqn:E; [discriminate|].
      destruct (IH _ H) as (pre & post & o1 & -> & Hpre).
      exists (GetOpt.Opt_w :: pre), post, o1. split; [reflexivity|].
      cbn [GetOpt.option_loop]. rewrite E. exact Hpre.
    + destruct (negb (mode o =? 0)) eqn:E; [discriminate|].
      destruct (IH _ H) as (pre & post & o1 & -> & Hpre).
      exists (GetOpt.Opt_t :: pre), post, o1. split; [reflexivity|].
      cbn [GetOpt.option_loop]. rewrite E. exact Hpre.
    + destruct (optval <=? 0) eqn:E; [discriminate|].
      destruct (IH _ H) as (pre & post & o1 & -> & Hpre).
      exists (GetOpt.Opt_s optval :: pre), post, o1. split; [reflexivity|].
      cbn [GetOpt.option_loop]. rewrite E. exact Hpre.
    + destruct ((optval <? 1) || (optval >? 2)) eqn:E; [discriminate|].
      destruct (IH _ H) as (pre & post & o1 & -> & Hpre).
      exists (GetOpt.Opt_b optval :: pre), post, o1. split; [reflexivity|].
      cbn [GetOpt.option_loop]. rewrite E. exact Hpre.
    + destruct (negb (space_eqb (space o) SPACE_UNSET)) eqn:E; [discriminate|].
      destruct (IH _ H) as (pre & post & o1 & -> & Hpre).
      exists (GetOpt.Opt_S :: pre), post, o1. split; [reflexivity|].
      cbn [GetOpt.option_loop]. rewrite E. exact Hpre.
    + destruct (negb (space_eqb (space o) SPACE_UNSET)) eqn:E; [discriminate|].
      destruct (IH _ H) as (pre & post & o1 & -> & Hpre).
      exists (GetOpt.Opt_R :: pre), post, o1. split; [reflexivity|].
      cbn [GetOpt.option_loop]. rewrite E. exact Hpre.
  - intros (pre & post & o1 & -> & Hpre).
    rewrite (option_loop_app pre _ o o1 Hpre). reflexivity.
Qed.

(** The loop goes through a list of options exactly when each of them is
    accepted and they hold at most one mode and at most one space. *)
Lemma option_loop_reaches (pre : list GetOpt.opt) :
  (exists o1, GetOpt.option_loop pre GetOpt.defaults = GetOpt.Parsed o1) <->
  Forall Facts.accepted pre /\
  (List.length (Facts.modes pre) <= 1)%nat /\
  (List.length (Facts.spaces pre) <= 1)%nat.
Proof.
  split.
  - intros (o1 & H).
    destruct (option_loop_parsed pre GetOpt.defaults o1 H) as (Ha & Hm & Hs & _).
    split; [assumption|]. split.
    + destruct (Facts.modes pre) as [|m [|m' l]]; cbn; try lia; contradiction.
    + destruct (Facts.spaces pre) as [|m [|m' l]]; cbn; try lia; contradiction.
  - intros (Ha & Hm & Hs). apply option_loop_accepts; [assumption| |].
    + destruct (Facts.modes pre) as [|m [|m' l]];
        [now left|right; now split|cbn in Hm; lia].
    + destruct (Facts.spaces pre) as [|m [|m' l]];
        [now left|right; now split|cbn in Hs; lia].
Qed.

(** X8: when get_options ends the process the exit status is 1 or 0, and it
    is 0 exactly when a --version is reached: when the options before it are
    all accepted (no --help and no unknown option, positive block sizes,
    banks 1 or 2) and hold at most one mode and at most one of --save and
    --rom. Every other exit, the one for a missing mode or file name
    included, has status 1. *)
Theorem get_options_exit_status (args : list GetOpt.opt) (rest : list string) :
  (forall code, GetOpt.get_options args rest = GetOpt.Exit code ->
     code = 1 \/ code = 0) /\
  (GetOpt.get_options args rest = GetOpt.Exit 0 <->
   exists pre post,
     args = pre ++ GetOpt.Opt_V :: post /\
     Forall Facts.accepted pre /\
     (List.length (Facts.modes pre) <= 1)%nat /\
     (List.length (Facts.spaces pre) <= 1)%nat).
Proof.
  assert (Hexit : forall code,
            GetOpt.get_options args rest = GetOpt.Exit code ->
            code = 1 \/
            GetOpt.option_loop args GetOpt.defaults = GetOpt.Exit code).
  { unfold GetOpt.get_options. intros code H.
    destruct (GetOpt.option_loop args GetOpt.defaults) as [o1|c] eqn:Hloop.
    - left.
      destruct (mode o1 =? 0); [now injection H|].
      destruct ((mode o1 =? MODE_WRITE) || (mode o1 =? MODE_READ)); [|discriminate].
      destruct rest as [|name tl]; [now injection H|].
      destruct (blocksize (GetOpt.set_file o1 (Some name)) =? 0); discriminate.
    - right. exact H. }
  split.
  - intros code H. destruct (Hexit code H) as [E|Hloop]; [now left|].
    destruct (option_loop_exit args GetOpt.defaults code Hloop) as [E|[E _]];
      [now left|now right].
  - split.
    + intros H. destruct (Hexit 0 H) as [E|Hloop]; [discriminate|].
      apply option_loop_version in Hloop.
      destruct Hloop as (pre & post & o1 & Hargs & Hpre).
      exists pre, post. split; [assumption|].
      apply option_loop_reaches. now exists o1.
    + intros (pre & post & Hargs & Hreach).
      apply option_loop_reaches in Hreach. destruct Hreach as [o1 Hpre].
      assert (Hloop : GetOpt.option_loop args GetOpt.defaults = GetOpt.Exit 0).
      { apply option_loop_version. now exists pre, post, o1. }
      unfold GetOpt.get_options. now rewrite Hloop.
Qed.

Lemma get_options_exit_status_witness :
  GetOpt.get_options
    [GetOpt.Opt_s 64; GetOpt.Opt_r; GetOpt.Opt_V; GetOpt.Opt_w] []
  = GetOpt.Exit 0.
Proof.
  apply (proj2 (proj2 (get_options_exit_status
                         [GetOpt.Opt_s 64; GetOpt.Opt_r; GetOpt.Opt_V; GetOpt.Opt_w]
                         []))).
  exists [GetOpt.Opt_s 64; GetOpt.Opt_r], [GetOpt.Opt_w].
  split; [reflexivity|]. split; [|split; cbn; lia].
  repeat constructor.
Defined.

(** ** main: title mode and the choice of the space *)

(** X9: in title mode main reads 512 bytes at offset 0 and at offset
    BANK_SIZE of ROM space, whatever the bank and the space of the options;
    it ends with errx when one of the two reads fails and otherwise reports
    on both headers: header_info never reads outside the 512 bytes. *)
Theorem title_mode (opts : options_t) (w : world) :
  ems_init_ok w = true -> malloc_ok w = true ->
  mode opts = MODE_TITLE -> file opts = None ->
  main opts w = title_session w /\
  fst (title_session w)
  = (if read_error w FROM_ROM 0 || read_error w FROM_ROM BANK_SIZE
     then Fatal else Completed) /\
  (fst (title_session w) = Completed ->
   exists r0 r1,
     snd (title_session w) = TitleSession (Some r0) (Some r1) /\
     Header.header_info (cart_block w FROM_ROM 0 512) = Some r0 /\
     Header.header_info (cart_block w FROM_ROM BANK_SIZE 512) = Some r1).
Proof.
  intros Hi Hm Hmode Hfile.
  assert (Hdef : forall a, exists r,
            Header.header_info (cart_block w FROM_ROM a 512) = Some r).
  { intros a. destruct (header_info_spec (cart_block w FROM_ROM a 512))
      as (r & _ & _ & Hr & _).
    - rewrite cart_block_length. unfold HEADER_CHKSUM. lia.
    - now exists r. }
  split.
  - unfold main, resolve_space. rewrite Hi, Hm, Hmode, Hfile. cbn [negb].
    now destruct (space opts).
  - unfold title_session, ems_read.
    change (Z.to_nat 512) with 512%nat.
    destruct (Hdef 0) as [r0 Hr0]. destruct (Hdef BANK_SIZE) as [r1 Hr1].
    destruct (read_error w FROM_ROM 0); cbn [orb fst snd];
      [split; [reflexivity|discriminate]|].
    rewrite Hr0.
    destruct (read_error w FROM_ROM BANK_SIZE); cbn [fst snd];
      [split; [reflexivity|discriminate]|].
    rewrite Hr1. cbn [fst snd]. split; [reflexivity|].
    intros _. exists r0, r1. split; [reflexivity|]. split; reflexivity.
Qed.

Lemma title_mode_witness :
  ems_init_ok Sample.blank = true /\ malloc_ok Sample.blank = true /\
  main (mkOptions 0 0 MODE_TITLE None 1 FROM_SRAM) Sample.blank
  = title_session Sample.blank /\
  fst (title_session Sample.blank) = Completed.
Proof.
  assert (I : ems_init_ok Sample.blank = true) by reflexivity.
  assert (M : malloc_ok Sample.blank = true) by reflexivity.
  split; [exact I|]. split; [exact M|].
  destruct (title_mode (mkOptions 0 0 MODE_TITLE None 1 FROM_SRAM) Sample.blank
              I M eq_refl eq_refl) as (Hmain & Hfst & _).
  split; [exact Hmain|exact Hfst].
Defined.

Lemma detect_space_short (name : list ascii) :
  Z.of_nat (List.length name) < 4 -> detect_space name = None.
Proof.
  intros Hshort. unfold detect_space, to_size_t.
  rewrite (Z.mod_small (Z.of_nat _)) by lia.
  rewrite <- (Z.mod_add _ 1) by lia.
  rewrite Z.mod_small by lia.
  rewrite char_at_outside by lia. reflexivity.
Qed.

Lemma detect_space_long (name : list ascii) :
  4 <= Z.of_nat (List.length name) < 2 ^ 64 ->
  detect_space name = Some FROM_ROM \/ detect_space name = Some FROM_SRAM.
Proof.
  intros Hlen.
  destruct (last_four name) as (pre & c4 & c3 & c2 & c1 & ->); [lia|].
  rewrite length_app in Hlen. cbn [List.length] in Hlen.
  rewrite detect_space_app by lia.
  destruct (_ && _); [now right|now left].
Qed.

(** X10: in read and write mode, with the file name main has then, the
    transfer runs on ROM or on SRAM, never on the unset space: a forced
    space is used as it is, and a name of four characters or more chooses
    one of the two. The only other course is a name of fewer than four
    characters with no forced space: main then ends at the read outside the
    name, before any file is opened and any block is moved. *)
Theorem main_space (opts : options_t) (w : world) (name : string) :
  ems_init_ok w = true -> malloc_ok w = true ->
  file opts = Some name ->
  Z.of_nat (String.length name) < 2 ^ 64 ->
  mode opts = MODE_READ \/ mode opts = MODE_WRITE ->
  (space opts = SPACE_UNSET /\ Z.of_nat (String.length name) < 4 /\
   main opts w = (Undefined, NoSession)) \/
  exists sp,
    (sp = FROM_ROM \/ sp = FROM_SRAM) /\
    (space opts <> SPACE_UNSET -> sp = space opts) /\
    resolve_space opts = Some sp /\
    (mode opts = MODE_READ ->
     exists o s, main opts w = (o, ReadSession s) /\
       Read.session w sp (to_uint (bank opts * BANK_SIZE)) (blocksize opts) = (o, s)) /\
    (mode opts = MODE_WRITE ->
     exists o s, main opts w = (o, WriteSession s) /\
       Write.session w sp (to_uint (bank opts * BANK_SIZE)) (blocksize opts) = (o, s)).
Proof.
  intros Hi Hm Hfile Hmax Hmode.
  assert (Hlen : List.length (list_ascii_of_string name) = String.length name).
  { clear. induction name as [|c s IH]; [reflexivity|]. cbn. now rewrite IH. }
  assert (Hsess : forall sp, resolve_space opts = Some sp ->
    (mode opts = MODE_READ ->
     exists o s, main opts w = (o, ReadSession s) /\
       Read.session w sp (to_uint (bank opts * BANK_SIZE)) (blocksize opts) = (o, s)) /\
    (mode opts = MODE_WRITE ->
     exists o s, main opts w = (o, WriteSession s) /\
       Write.session w sp (to_uint (bank opts * BANK_SIZE)) (blocksize opts) = (o, s))).
  { intros sp Hsp.
    destruct (main_sessions opts w sp Hi Hm Hsp) as [Hr Hw].
    split; intros E.
    - destruct (Read.session w sp _ _) as [o s] eqn:Es.
      exists o, s. split; [now apply Hr|reflexivity].
    - destruct (Write.session w sp _ _) as [o s] eqn:Es.
      exists o, s. split; [now apply Hw|reflexivity]. }
  destruct (space opts) eqn:Hspace.
  - (* no forced space *)
    assert (Hres : resolve_space opts = detect_space (list_ascii_of_string name)).
    { unfold resolve_space. now rewrite Hspace, Hfile. }
    destruct (Z.lt_ge_cases (Z.of_nat (String.length name)) 4) as [Hshort|Hlong].
    + left. split; [reflexivity|]. split; [assumption|].
      unfold main. rewrite Hi, Hm, Hres, detect_space_short by (rewrite Hlen; lia).
      reflexivity.
    + right.
      destruct (detect_space_long (list_ascii_of_string name)) as [Hd|Hd];
        [rewrite Hlen; lia| |].
      * exists FROM_ROM. rewrite Hres, Hd.
        split; [now left|]. split; [contradiction|]. split; [reflexivity|].
        apply Hsess. now rewrite Hres.
      * exists FROM_SRAM. rewrite Hres, Hd.
        split; [now right|]. split; [contradiction|]. split; [reflexivity|].
        apply Hsess. now rewrite Hres.
  - right. exists FROM_ROM.
    assert (Hres : resolve_space opts = Some FROM_ROM)
      by (unfold resolve_space; now rewrite Hspace).
    split; [now left|]. split; [reflexivity|]. split; [assumption|].
    now apply Hsess.
  - right. exists FROM_SRAM.
    assert (Hres : resolve_space opts = Some FROM_SRAM)
      by (unfold resolve_space; now rewrite Hspace).
    split; [now right|]. split; [reflexivity|]. split; [assumption|].
    now apply Hsess.
Qed.

Lemma main_space_witness :
  ems_init_ok Sample.blank = true /\ malloc_ok Sample.blank = true /\
  Z.of_nat (String.length "sav") < 2 ^ 64 /\
  main (mkOptions 0 BLOCKSIZE_READ MODE_READ (Some "sav"%string) 0 SPACE_UNSET)
    Sample.blank
  = (Undefined, NoSession).
Proof.
  assert (I : ems_init_ok Sample.blank = true) by reflexivity.
  assert (M : malloc_ok Sample.blank = true) by reflexivity.
  assert (L : Z.of_nat (String.length "sav") < 2 ^ 64) by (cbn; lia).
  split; [exact I|]. split; [exact M|]. split; [exact L|].
  destruct (main_space
              (mkOptions 0 BLOCKSIZE_READ MODE_READ (Some "sav"%string) 0 SPACE_UNSET)
              Sample.blank "sav"%string I M eq_refl L (or_introl eq_refl))
    as [(_ & _ & H)|(sp & _ & _ & Hres & _)].
  - exact H.
  - discriminate Hres.
Defined.

(** ** The read session: what is read and what is saved *)

Lemma block_calls_S (space : space_t) (base blocksize : Z) (n : nat) :
  Facts.block_calls space base blocksize (S n)
  = Facts.block_calls space base blocksize n
      ++ [(space, base + Z.of_nat n * blocksize, blocksize)].
Proof.
  unfold Facts.block_calls. rewrite seq_S, map_app. reflexivity.
Qed.

Lemma block_calls_length (space : space_t) (base blocksize : Z) (n : nat) :
  List.length (Facts.block_calls space base blocksize n) = n.
Proof.
  unfold Facts.block_calls. now rewrite length_map, length_seq.
Qed.

Lemma cart_block_app (w : world) (from : space_t) (a : Z) (n m : nat) :
  cart_block w from a (n + m)
  = cart_block w from a n ++ cart_block w from (a + Z.of_nat n) m.
Proof.
  revert a; induction n as [|n IH]; intros a.
  - cbn [Nat.add cart_block app]. now rewrite Z.add_0_r.
  - cbn [Nat.add cart_block app]. rewrite IH. do 3 f_equal. lia.
Qed.

Section ReadData.

Variable w : world.
Variable space : space_t.
Variables base blocksize : Z.
Hypothesis blocksize_int : 0 < blocksize <= INT_MAX.
Hypothesis base_range : 0 <= base <= BANK_SIZE.

(** What one iteration does to the offset, the saved file and the reads. *)
Lemma body_cases (s : Read.state) :
  Invariant.read_inv space blocksize s ->
  Read.cond blocksize s = true ->
  let buf := cart_block w space (base + Read.offset s) (Z.to_nat blocksize) in
  match Read.body w space base blocksize s with
  | Next s' | Stop Undefined s' =>
      read_error w space (base + Read.offset s) = false /\
      fwrite_error w (Read.offset s) = false /\
      Read.offset s' = Read.offset s + blocksize /\
      Read.saved s' = Read.saved s ++ buf /\
      Spec.reads (Read.trace s')
      = Spec.reads (Read.trace s) ++ [(space, base + Read.offset s, blocksize)]
  | Stop Returned1 s' =>
      read_error w space (base + Read.offset s) = true /\
      Read.offset s' = Read.offset s /\
      Read.saved s' = Read.saved s /\
      Spec.reads (Read.trace s')
      = Spec.reads (Read.trace s) ++ [(space, base + Read.offset s, blocksize)]
  | Stop Fatal s' =>
      read_error w space (base + Read.offset s) = false /\
      fwrite_error w (Read.offset s) = true /\
      Read.offset s' = Read.offset s /\
      Read.saved s' = Read.saved s /\
      Spec.reads (Read.trace s')
      = Spec.reads (Read.trace s) ++ [(space, base + Read.offset s, blocksize)]
  | Stop _ _ => False
  end.
Proof.
  intros ([Ho Hd Hr Hj Ht] & HK & Hn) Hcond.
  rewrite (cond_spec space blocksize blocksize_int) in Hcond by assumption.
  apply Z.leb_le in Hcond.
  pose proof (limits_range space) as L.
  unfold BANK_SIZE, INT_MAX in *.
  assert (Ea : to_uint (Read.offset s + base) = base + Read.offset s)
    by (rewrite to_uint_small; lia).
  assert (Hreads : forall tl, Spec.reads tl = [] ->
            Spec.reads ((Read.trace s ++ [EmsRead space (base + Read.offset s) blocksize]) ++ tl)
            = Spec.reads (Read.trace s) ++ [(space, base + Read.offset s, blocksize)]).
  { intros tl Htl. rewrite !reads_app, Htl, app_nil_r. reflexivity. }
  cbv zeta. unfold Read.body, ems_read. rewrite Ea.
  destruct (read_error w space (base + Read.offset s)).
  { unfold Read.log. rproj. repeat split. rewrite reads_app. reflexivity. }
  unfold Read.log at 1. rproj.
  destruct (fwrite_error w (Read.offset s)).
  { unfold Read.log. rproj. repeat split. rewrite reads_app. reflexivity. }
  unfold Read.log. rproj.
  rewrite (to_uint_small (Read.offset s + blocksize)) by lia.
  destruct ((Read.offset s + blocksize >=? HEADER_ROMSIZE)
            && (Read.untilset s =? 0) && space_eqb space FROM_ROM).
  - destruct (zth _ _); rproj; repeat split; apply Hreads; reflexivity.
  - rproj. repeat split. rewrite reads_app. reflexivity.
Qed.

Lemma read_data_step (k : nat) (s : Read.state) :
  Invariant.read_inv space blocksize s ->
  Read.cond blocksize s = true ->
  Data.read_data w space base blocksize k s ->
  match Read.body w space base blocksize s with
  | Next s' => Data.read_data w space base blocksize (S k) s'
  | Stop o s' => Data.read_data_post w space base blocksize o s'
  end.
Proof.
  intros Hinv Hcond (Ho & Hr & Hs).
  pose proof (body_cases s Hinv Hcond) as Hc. cbv zeta in Hc.
  assert (Hin : Read.offset s + blocksize <= limits space).
  { destruct Hinv as ([Ho' _ Hr' _ _] & _).
    rewrite (cond_spec space blocksize blocksize_int) in Hcond by assumption.
    apply Z.leb_le in Hcond. lia. }
  assert (Hnext : forall s',
    Read.offset s' = Read.offset s + blocksize ->
    Read.saved s' = Read.saved s
      ++ cart_block w space (base + Read.offset s) (Z.to_nat blocksize) ->
    Spec.reads (Read.trace s')
    = Spec.reads (Read.trace s) ++ [(space, base + Read.offset s, blocksize)] ->
    Data.read_data w space base blocksize (S k) s').
  { intros s' Ho' Hs' Hr'. unfold Data.read_data.
    rewrite Ho', Hs', Hr', Hr, Hs, block_calls_S, Ho.
    split; [lia|]. split; [reflexivity|].
    replace (Z.to_nat (Z.of_nat k * blocksize + blocksize))
      with (Z.to_nat (Z.of_nat k * blocksize) + Z.to_nat blocksize)%nat by lia.
    rewrite cart_block_app. do 2 f_equal. lia. }
  destruct (Read.body w space base blocksize s) as [s'|o s'].
  - destruct Hc as (_ & _ & Ho' & Hs' & Hr'). now apply Hnext.
  - destruct o; try contradiction.
    + destruct Hc as (He & Ho' & Hs' & Hr'). exists k.
      rewrite Ho', Hs', Hr', Hr, block_calls_S.
      repeat split; try assumption. now rewrite Ho.
    + destruct Hc as (He & Hf & Ho' & Hs' & Hr'). exists k.
      rewrite Ho', Hs', Hr', Hr, block_calls_S.
      repeat split; try assumption. now rewrite Ho.
    + destruct Hc as (_ & _ & Ho' & Hs' & Hr').
      destruct (Hnext s' Ho' Hs' Hr') as (Ho2 & Hr2 & Hs2).
      exists (S k). repeat split; assumption.
Qed.

Lemma read_data_loop (fuel : nat) (k : nat) (s : Read.state) :
  Invariant.read_inv space blocksize s ->
  limits space - Read.offset s < Z.of_nat fuel * blocksize ->
  Data.read_data w space base blocksize k s ->
  Data.read_data_post w space base blocksize (fst (Read.loop fuel w space base blocksize s))
    (snd (Read.loop fuel w space base blocksize s)).
Proof.
  revert k s; induction fuel as [|fuel IH]; intros k s Hinv Hfuel Hdata.
  - destruct Hinv as ([Ho _ _ _ _] & _). lia.
  - cbn [Read.loop].
    destruct (Read.cond blocksize s) eqn:C.
    + pose proof (body_step w space base blocksize blocksize_int s Hinv C) as Hstep.
      pose proof (read_data_step k s Hinv C Hdata) as Hd.
      destruct (Read.body w space base blocksize s) as [s'|o s'].
      * destruct Hstep as [Hinv' Hoff]. apply (IH (S k)); try assumption.
        rewrite Hoff. rewrite Nat2Z.inj_succ, Z.mul_succ_l in Hfuel. lia.
      * exact Hd.
    + cbn [fst snd]. destruct Hdata as (Ho & Hr & Hs). exists k.
      repeat split; assumption.
Qed.

End ReadData.

Section ReadSession.

Variable w : world.
Variable space : space_t.
Variables base blocksize : Z.
Hypothesis blocksize_int : 0 < blocksize <= INT_MAX.
Hypothesis base_range : 0 <= base <= BANK_SIZE.

Lemma read_session_data :
  fopen_w_ok w = true ->
  Data.read_data_post w space base blocksize
    (fst (Read.session w space base blocksize))
    (snd (Read.session w space base blocksize)).
Proof.
  intros Hopen. unfold Read.session. rewrite Hopen. cbn [negb].
  apply (read_data_loop w space base blocksize blocksize_int base_range _ 0%nat).
  - now apply init_inv.
  - now apply fuel_enough.
  - repeat split.
Qed.

(** A loop that is left by its condition is left in a state of the
    invariant. *)
Lemma loop_completed_inv (fuel : nat) (s : Read.state) :
  Invariant.read_inv space blocksize s ->
  fst (Read.loop fuel w space base blocksize s) = Completed ->
  Invariant.read_inv space blocksize
    (snd (Read.loop fuel w space base blocksize s)).
Proof.
  revert s; induction fuel as [|fuel IH]; intros s Hinv; [discriminate|].
  cbn [Read.loop].
  destruct (Read.cond blocksize s) eqn:C; [|now intros _].
  pose proof (body_step w space base blocksize blocksize_int s Hinv C) as Hstep.
  destruct (Read.body w space base blocksize s) as [s'|o s'].
  - destruct Hstep as [Hinv' _]. now apply IH.
  - destruct Hstep as [_ Hne]. cbn [fst]. intros E. contradiction.
Qed.

Lemma session_completed_inv :
  fst (Read.session w space base blocksize) = Completed ->
  Invariant.read_inv space blocksize (snd (Read.session w space base blocksize)).
Proof.
  unfold Read.session. destruct (fopen_w_ok w); cbn [negb]; [|discriminate].
  apply loop_completed_inv. now apply init_inv.
Qed.

End ReadSession.

(** X11: however a read session ends, the file written holds the bytes of
    the cart from the base address of the bank on, as many as the final
    offset says, in order: the blocks that were read, nothing else. *)
Theorem read_session_saved (w : world) (space : space_t) (base blocksize : Z) :
  0 < blocksize <= INT_MAX -> 0 <= base <= BANK_SIZE ->
  let s := snd (Read.session w space base blocksize) in
  Read.saved s = cart_block w space base (Z.to_nat (Read.offset s)) /\
  Z.of_nat (List.length (Read.saved s)) = Read.offset s.
Proof.
  intros Hbs Hbase s.
  assert (E : Read.saved s = cart_block w space base (Z.to_nat (Read.offset s))).
  { destruct (fopen_w_ok w) eqn:Hopen.
    - destruct (read_session_data w space base blocksize Hbs Hbase Hopen)
        as (k & _ & Hs & _). exact Hs.
    - unfold s, Read.session. rewrite Hopen. reflexivity. }
  split; [exact E|].
  rewrite E, cart_block_length.
  destruct (session_post w space base blocksize Hbs) as ([Ho _ _ _ _] & _).
  fold s in Ho. lia.
Qed.

Lemma read_session_saved_witness :
  0 < 4096 <= INT_MAX /\ 0 <= BANK_SIZE <= BANK_SIZE /\
  let s := snd (Read.session Sample.blank FROM_SRAM BANK_SIZE 4096) in
  Read.saved s = cart_block Sample.blank FROM_SRAM BANK_SIZE (Z.to_nat (Read.offset s)) /\
  Z.of_nat (List.length (Read.saved s)) = Read.offset s.
Proof.
  assert (B : 0 < 4096 <= INT_MAX) by (unfold INT_MAX; lia).
  assert (R : 0 <= BANK_SIZE <= BANK_SIZE) by (unfold BANK_SIZE; lia).
  split; [exact B|]. split; [exact R|].
  exact (read_session_saved Sample.blank FROM_SRAM BANK_SIZE 4096 B R).
Defined.

(** X12: the device reads of a session are consecutive blocks: read number
    k (from 0) is for exactly one block at base + k * blocksize, in the space
    of the session, and ends at or before base + the limit of the space.
    When the session completes, their number times the block size is the
    final offset. *)
Theorem read_session_calls (w : world) (space : space_t) (base blocksize : Z) :
  0 < blocksize <= INT_MAX -> 0 <= base <= BANK_SIZE ->
  let o := fst (Read.session w space base blocksize) in
  let s := snd (Read.session w space base blocksize) in
  let n := List.length (Spec.reads (Read.trace s)) in
  Spec.reads (Read.trace s) = Facts.block_calls space base blocksize n /\
  Z.of_nat n * blocksize <= limits space /\
  (o = Completed -> Read.offset s = Z.of_nat n * blocksize).
Proof.
  intros Hbs Hbase o s n.
  destruct (session_post w space base blocksize Hbs) as ([Ho _ _ _ _] & _).
  fold s in Ho.
  destruct (fopen_w_ok w) eqn:Hopen.
  - destruct (read_session_data w space base blocksize Hbs Hbase Hopen)
      as (k & Hoff & _ & Hcase).
    fold o s in Hoff, Hcase.
    assert (Hn : forall m, Spec.reads (Read.trace s)
                           = Facts.block_calls space base blocksize m -> n = m).
    { intros m Hm. unfold n. now rewrite Hm, block_calls_length. }
    destruct o; try contradiction.
    + rewrite (Hn k Hcase).
      split; [assumption|]. split; [lia|]. intros _. assumption.
    + destruct Hcase as (Hr & Hin & _). rewrite (Hn (S k) Hr).
      split; [assumption|]. split; [|discriminate].
      rewrite Nat2Z.inj_succ, Z.mul_succ_l. lia.
    + destruct Hcase as (Hr & Hin & _). rewrite (Hn (S k) Hr).
      split; [assumption|]. split; [|discriminate].
      rewrite Nat2Z.inj_succ, Z.mul_succ_l. lia.
    + rewrite (Hn k Hcase).
      split; [assumption|]. split; [lia|discriminate].
  - unfold n, o, s, Read.session. rewrite Hopen. cbn [negb fst snd].
    pose proof (limits_range space).
    split; [reflexivity|]. split; [cbn; lia|discriminate].
Qed.

Lemma read_session_calls_witness :
  0 < 4096 <= INT_MAX /\ 0 <= BANK_SIZE <= BANK_SIZE /\
  let o := fst (Read.session Sample.blank FROM_ROM BANK_SIZE 4096) in
  let s := snd (Read.session Sample.blank FROM_ROM BANK_SIZE 4096) in
  let n := List.length (Spec.reads (Read.trace s)) in
  Spec.reads (Read.trace s) = Facts.block_calls FROM_ROM BANK_SIZE 4096 n /\
  Z.of_nat n * 4096 <= limits FROM_ROM /\
  (o = Completed -> Read.offset s = Z.of_nat n * 4096).
Proof.
  assert (B : 0 < 4096 <= INT_MAX) by (unfold INT_MAX; lia).
  assert (R : 0 <= BANK_SIZE <= BANK_SIZE) by (unfold BANK_SIZE; lia).
  split; [exact B|]. split; [exact R|].
  exact (read_session_calls Sample.blank FROM_ROM BANK_SIZE 4096 B R).
Defined.

(** X13: a read session that ends with [return 1] made its last device read
    at the final offset, the one the warning names, and that read failed: the
    blocks before it are in the file. One that ends with [err] either could
    not open the file, and made no device call, or could not write the block
    just read at the final offset. *)
Theorem read_session_abort (w : world) (space : space_t) (base blocksize : Z) :
  0 < blocksize <= INT_MAX -> 0 <= base <= BANK_SIZE ->
  let o := fst (Read.session w space base blocksize) in
  let s := snd (Read.session w space base blocksize) in
  (o = Returned1 ->
   read_error w space (base + Read.offset s) = true /\
   last (Spec.reads (Read.trace s)) (space, 0, 0)
   = (space, base + Read.offset s, blocksize)) /\
  (o = Fatal ->
   fopen_w_ok w = false /\ Read.trace s = [] \/
   fopen_w_ok w = true /\ fwrite_error w (Read.offset s) = true /\
   last (Spec.reads (Read.trace s)) (space, 0, 0)
   = (space, base + Read.offset s, blocksize)).
Proof.
  intros Hbs Hbase o s.
  destruct (fopen_w_ok w) eqn:Hopen.
  - destruct (read_session_data w space base blocksize Hbs Hbase Hopen)
      as (k & Hoff & _ & Hcase).
    fold o s in Hoff, Hcase.
    split; intros Eo; rewrite Eo in Hcase.
    + destruct Hcase as (Hr & _ & He). split; [assumption|].
      rewrite Hr, block_calls_S, last_last, Hoff. reflexivity.
    + destruct Hcase as (Hr & _ & _ & Hf). right.
      split; [reflexivity|]. split; [assumption|].
      rewrite Hr, block_calls_S, last_last, Hoff. reflexivity.
  - unfold o, s, Read.session. rewrite Hopen. cbn [negb fst snd].
    split; [discriminate|]. intros _. left. now split.
Qed.

Lemma read_session_abort_witness :
  0 < 4096 <= INT_MAX /\ 0 <= 0 <= BANK_SIZE /\
  let w := mkWorld true true (fun _ _ => x00) (fun _ a => a =? 8192)
             (fun _ _ => false) true (fun _ => false) None in
  let o := fst (Read.session w FROM_ROM 0 4096) in
  let s := snd (Read.session w FROM_ROM 0 4096) in
  o = Returned1 /\
  read_error w FROM_ROM (0 + Read.offset s) = true /\
  last (Spec.reads (Read.trace s)) (FROM_ROM, 0, 0)
  = (FROM_ROM, 0 + Read.offset s, 4096).
Proof.
  assert (B : 0 < 4096 <= INT_MAX) by (unfold INT_MAX; lia).
  assert (R : 0 <= 0 <= BANK_SIZE) by (unfold BANK_SIZE; lia).
  split; [exact B|]. split; [exact R|]. cbv zeta.
  assert (E : fst (Read.session
                     (mkWorld true true (fun _ _ => x00) (fun _ a => a =? 8192)
                        (fun _ _ => false) true (fun _ => false) None)
                     FROM_ROM 0 4096) = Returned1)
    by (vm_compute; reflexivity).
  split; [exact E|].
  exact (proj1 (read_session_abort _ FROM_ROM 0 4096 B R) E).
Defined.

(** X14: a completed read session has read every whole block below its
    bound: when the block size is at most the final [readuntil], the final
    offset is the largest multiple of the block size that is not above it.
    What is left over when the block size does not divide the bound is not
    read. *)
Theorem read_session_whole_blocks (w : world) (space : space_t)
  (base blocksize : Z) (s : Read.state) :
  0 < blocksize <= INT_MAX ->
  Read.session w space base blocksize = (Completed, s) ->
  blocksize <= Read.readuntil s ->
  Read.offset s = blocksize * (Read.readuntil s / blocksize) /\
  Read.readuntil s - Read.offset s = Read.readuntil s mod blocksize.
Proof.
  intros Hbs Hs Hle.
  destruct (session_post w space base blocksize Hbs)
    as ([Ho Hd Hr Hj Ht] & _ & Hc & _).
  rewrite Hs in Ho, Hd, Hr, Hj, Hc. cbn [fst snd] in Ho, Hd, Hr, Hj, Hc.
  specialize (Hc eq_refl). specialize (Hj Hle).
  rewrite (cond_spec space blocksize Hbs) in Hc by assumption.
  apply Z.leb_gt in Hc.
  destruct Hd as [q Hq].
  assert (Hdiv : Read.readuntil s / blocksize = q).
  { symmetry. apply (Z.div_unique _ _ q (Read.readuntil s - Read.offset s)); lia. }
  pose proof (Z.div_mod (Read.readuntil s) blocksize) as Hdm.
  rewrite Hdiv in *. split; lia.
Qed.

Lemma read_session_whole_blocks_witness :
  0 < 4096 <= INT_MAX /\
  let s := snd (Read.session Sample.blank FROM_SRAM 0 4096) in
  Read.session Sample.blank FROM_SRAM 0 4096 = (Completed, s) /\
  4096 <= Read.readuntil s /\
  Read.offset s = 4096 * (Read.readuntil s / 4096) /\
  Read.readuntil s - Read.offset s = Read.readuntil s mod 4096.
Proof.
  assert (B : 0 < 4096 <= INT_MAX) by (unfold INT_MAX; lia).
  assert (F : fst (Read.session Sample.blank FROM_SRAM 0 4096) = Completed)
    by (vm_compute; reflexivity).
  assert (C : Read.session Sample.blank FROM_SRAM 0 4096
              = (Completed, snd (Read.session Sample.blank FROM_SRAM 0 4096)))
    by (rewrite <- F; apply surjective_pairing).
  assert (R : 4096 <= Read.readuntil (snd (Read.session Sample.blank FROM_SRAM 0 4096)))
    by (vm_compute; intro; discriminate).
  split; [exact B|]. cbv zeta. split; [exact C|]. split; [exact R|].
  exact (read_session_whole_blocks Sample.blank FROM_SRAM 0 4096 _ B C R).
Defined.

(** X15: with an output file that opens and a device and a file that do not
    fail, a read session either completes or ends at the read of the size
    byte outside its buffer, and the latter happens exactly for a read of
    ROM space with a block size that divides 0x148. *)
Theorem read_session_outcome (w : world) (space : space_t) (base blocksize : Z) :
  0 < blocksize <= INT_MAX -> 0 <= base <= BANK_SIZE ->
  fopen_w_ok w = true ->
  (forall a, read_error w space a = false) ->
  (forall o, fwrite_error w o = false) ->
  let o := fst (Read.session w space base blocksize) in
  (o = Completed \/ o = Undefined) /\
  (o = Undefined <-> space = FROM_ROM /\ (blocksize | HEADER_ROMSIZE)).
Proof.
  intros Hbs Hbase Hopen Hread Hfwrite o.
  destruct (read_session_data w space base blocksize Hbs Hbase Hopen)
    as (k & _ & _ & Hcase).
  destruct (session_post w space base blocksize Hbs) as (_ & _ & Hc & Hn).
  pose proof (session_completed_inv w space base blocksize Hbs) as Hinv.
  fold o in Hcase, Hc, Hn, Hinv.
  assert (Hout : o = Completed \/ o = Undefined).
  { destruct o; try contradiction; auto.
    - destruct Hcase as (_ & _ & He). rewrite Hread in He. discriminate.
    - destruct Hcase as (_ & _ & _ & Hf). rewrite Hfwrite in Hf. discriminate. }
  split; [exact Hout|]. split.
  - intros Eo. rewrite Eo in Hn. destruct Hn as (_ & Hsp & _ & _ & Hd). now split.
  - intros [Hsp Hdiv]. destruct Hout as [Eo|Eo]; [exfalso|assumption].
    rewrite Eo in Hn. specialize (Hc Eo). specialize (Hinv Eo).
    destruct Hn as [(Hu & _ & Hr)|(_ & _ & _ & _ & _ & _ & _ & Hnd)];
      [|contradiction].
    destruct Hinv as ([Ho _ _ _ _] & HK & _).
    specialize (HK Hsp Hu).
    rewrite (cond_spec space blocksize Hbs) in Hc by assumption.
    apply Z.leb_gt in Hc. rewrite Hr in Hc.
    assert (Hlim : limits space = 4194304) by (now rewrite Hsp).
    apply Z.divide_pos_le in Hdiv; unfold HEADER_ROMSIZE in *; lia.
Qed.

Lemma read_session_outcome_witness :
  0 < 41 <= INT_MAX /\ 0 <= 0 <= BANK_SIZE /\
  fopen_w_ok Sample.blank = true /\
  (forall a, read_error Sample.blank FROM_ROM a = false) /\
  (forall o, fwrite_error Sample.blank o = false) /\
  (fst (Read.session Sample.blank FROM_ROM 0 41) = Undefined <->
   FROM_ROM = FROM_ROM /\ (41 | HEADER_ROMSIZE)).
Proof.
  assert (B : 0 < 41 <= INT_MAX) by (unfold INT_MAX; lia).
  assert (R : 0 <= 0 <= BANK_SIZE) by (unfold BANK_SIZE; lia).
  assert (O : fopen_w_ok Sample.blank = true) by reflexivity.
  assert (E : forall a, read_error Sample.blank FROM_ROM a = false)
    by (intros a; reflexivity).
  assert (F : forall o, fwrite_error Sample.blank o = false)
    by (intros o; reflexivity).
  split; [exact B|]. split; [exact R|]. split; [exact O|].
  split; [exact E|]. split; [exact F|].
  exact (proj2 (read_session_outcome Sample.blank FROM_ROM 0 41 B R O E F)).
Defined.

(** ** The write session: what is written *)

Lemma written_app (a b : list event) :
  Facts.written (a ++ b) = Facts.written a ++ Facts.written b.
Proof.
  induction a as [|e a IH]; [reflexivity|].
  destruct e; cbn [app Facts.written]; rewrite IH; try reflexivity.
  now rewrite app_assoc.
Qed.

Lemma firstn_add {A : Type} (n m : nat) (l : list A) :
  firstn (n + m) l = firstn n l ++ firstn m (skipn n l).
Proof.
  revert l; induction n as [|n IH]; intros l; [reflexivity|].
  destruct l as [|x l]; cbn [Nat.add firstn skipn app].
  - now rewrite firstn_nil.
  - now rewrite IH.
Qed.

Section WriteData.

Variable w : world.
Variable space : space_t.
Variables base blocksize : Z.
Variable file : list byte.
Hypothesis blocksize_int : 0 < blocksize <= INT_MAX.
Hypothesis base_range : 0 <= base <= BANK_SIZE.

Lemma write_data_loop (fuel : nat) (k : nat) (s : Write.state) :
  Invariant.write_inv space blocksize s ->
  limits space - Write.offset s < Z.of_nat fuel * blocksize ->
  Data.write_data file space base blocksize k s ->
  Data.write_data_post w file space base blocksize
    (fst (Write.loop fuel w space base blocksize s))
    (snd (Write.loop fuel w space base blocksize s)).
Proof.
  revert k s; induction fuel as [|fuel IH]; intros k s Hinv Hfuel Hdata.
  - destruct Hinv as (Ho & _). lia.
  - cbn [Write.loop].
    rewrite (write_cond_spec space blocksize blocksize_int) by assumption.
    pose proof Hinv as (Ho & Hd & Ht).
    destruct Hdata as (Hk & Hlen & Hw & Hwr & Hrest).
    pose proof (limits_range space) as L. unfold BANK_SIZE, INT_MAX in *.
    assert (Hdone : forall m,
              Write.offset s <= m < Write.offset s + blocksize ->
              Write.offset s = blocksize * (m / blocksize)).
    { intros m Hm. rewrite Hk.
      rewrite <- (Z.div_unique m blocksize (Z.of_nat k) (m - Write.offset s));
        lia. }
    destruct (Z.leb_spec (Write.offset s + blocksize) (limits space)) as [Hle|Hgt].
    2:{ cbn [fst snd]. exists k. split; [assumption|].
        split; [assumption|]. split; [assumption|]. apply Hdone. lia. }
    unfold Write.fread.
    assert (Hrl : Z.of_nat (List.length (Write.rest s))
                  = Z.of_nat (List.length file) - Write.offset s).
    { rewrite Hrest, length_skipn. lia. }
    destruct (Z.leb_spec blocksize (Z.of_nat (List.length (Write.rest s))))
      as [Hfull|Hshort]; cbv beta iota.
    2:{ cbn [fst snd Write.offset Write.trace]. exists k. split; [assumption|].
        split; [assumption|]. split; [assumption|]. apply Hdone. lia. }
    assert (Ea : to_uint (Write.offset s + base) = base + Write.offset s)
      by (rewrite to_uint_small; lia).
    rewrite Ea. unfold ems_write.
    assert (Hw' : Spec.writes
                    (Write.trace s ++
                       [EmsWrite space (base + Write.offset s) blocksize
                          (firstn (Z.to_nat blocksize) (Write.rest s))])
                  = Facts.block_calls space base blocksize (S k)).
    { rewrite writes_app, Hw, block_calls_S, Hk. reflexivity. }
    assert (Hwr' : Facts.written
                    (Write.trace s ++
                       [EmsWrite space (base + Write.offset s) blocksize
                          (firstn (Z.to_nat blocksize) (Write.rest s))])
                   = firstn (Z.to_nat (Write.offset s + blocksize)) file).
    { rewrite written_app, Hwr, Hrest. cbn [Facts.written]. rewrite app_nil_r.
      replace (Z.to_nat (Write.offset s + blocksize))
        with (Z.to_nat (Write.offset s) + Z.to_nat blocksize)%nat by lia.
      now rewrite firstn_add. }
    destruct (write_error w space (base + Write.offset s)) eqn:He; cbn [negb].
    + cbn [fst snd]. exists k. cbn [Write.offset Write.trace].
      split; [assumption|].
      split; [assumption|]. split; [assumption|]. split; [lia|assumption].
    + rewrite (to_uint_small (Write.offset s + blocksize)) by lia.
      apply (IH (S k)).
      * repeat split; cbn [Write.offset Write.trace]; try lia.
        -- apply Z.divide_add_r; [assumption|apply Z.divide_refl].
        -- apply Forall_app. split; [assumption|].
           constructor; [|constructor]. cbn [Spec.block_sized].
           split; [reflexivity|]. rewrite length_firstn. lia.
      * cbn [Write.offset]. rewrite Nat2Z.inj_succ, Z.mul_succ_l in Hfuel. lia.
      * unfold Data.write_data. cbn [Write.offset Write.trace Write.rest].
        split; [lia|]. split; [lia|]. split; [assumption|]. split; [assumption|].
        rewrite Hrest, skipn_skipn. f_equal. lia.
Qed.

Lemma write_session_data :
  input w = Some file ->
  Write.too_large (Write.file_size file) space = false ->
  Data.write_data_post w file space base blocksize
    (fst (Write.session w space base blocksize))
    (snd (Write.session w space base blocksize)).
Proof.
  intros Hin Hsize. unfold Write.session. rewrite Hin, Hsize.
  pose proof (limits_range space) as L.
  apply (write_data_loop _ 0%nat).
  - repeat split; cbn [Write.init Write.offset Write.trace];
      try lia; try constructor. apply Z.divide_0_r.
  - unfold Write.fuel, Write.init, INT_MAX in *. cbn [Write.offset].
    rewrite Nat2Z.inj_succ, Z2Nat.id by (apply Z.div_pos; lia).
    pose proof (Z.mul_succ_div_gt (limits space) blocksize). lia.
  - unfold Data.write_data, Write.init.
    cbn [Write.offset Write.trace Write.rest].
    repeat split. lia.
Qed.

End WriteData.

(** X16: the device writes of a session are consecutive blocks: write number
    k (from 0) is for exactly one block at base + k * blocksize, in the space
    of the session; together they carry the first bytes of the file, in
    order, and they stay within the file and within the limit of the
    space. *)
Theorem write_session_calls (w : world) (space : space_t) (base blocksize : Z)
  (file : list byte) :
  0 < blocksize <= INT_MAX -> 0 <= base <= BANK_SIZE ->
  input w = Some file ->
  let s := snd (Write.session w space base blocksize) in
  let n := List.length (Spec.writes (Write.trace s)) in
  Spec.writes (Write.trace s) = Facts.block_calls space base blocksize n /\
  Facts.written (Write.trace s) = firstn (Z.to_nat (Z.of_nat n * blocksize)) file /\
  Z.of_nat n * blocksize <= Z.min (Z.of_nat (List.length file)) (limits space).
Proof.
  intros Hbs Hbase Hin s n.
  pose proof (limits_range space) as L.
  destruct (Write.too_large (Write.file_size file) space) eqn:Hsize.
  - unfold n, s, Write.session. rewrite Hin, Hsize.
    cbn [snd Write.init Write.trace Spec.writes Facts.written List.length].
    repeat split. cbn. lia.
  - destruct (write_session_data w space base blocksize file Hbs Hbase Hin Hsize)
      as (k & Hoff & Hcase).
    fold s in Hoff, Hcase.
    assert (Hn : forall m, Spec.writes (Write.trace s)
                           = Facts.block_calls space base blocksize m -> n = m).
    { intros m Hm. unfold n. now rewrite Hm, block_calls_length. }
    destruct (fst (Write.session w space base blocksize)); try contradiction.
    + destruct Hcase as (Hw & Hwr & Hmax). rewrite (Hn k Hw), <- Hoff.
      split; [assumption|]. split; [assumption|].
      rewrite Hmax. apply Z.mul_div_le. lia.
    + destruct Hcase as (Hw & Hwr & Hmax & _). rewrite (Hn (S k) Hw).
      rewrite Nat2Z.inj_succ, Z.mul_succ_l, <- Hoff.
      split; [assumption|]. split; assumption.
Qed.

Lemma write_session_calls_witness :
  0 < 32 <= INT_MAX /\ 0 <= 0 <= BANK_SIZE /\
  input (Sample.world_of x00 (Some Sample.small_rom)) = Some Sample.small_rom /\
  let s := snd (Write.session (Sample.world_of x00 (Some Sample.small_rom))
                  TO_ROM 0 32) in
  let n := List.length (Spec.writes (Write.trace s)) in
  Spec.writes (Write.trace s) = Facts.block_calls TO_ROM 0 32 n /\
  Facts.written (Write.trace s)
  = firstn (Z.to_nat (Z.of_nat n * 32)) Sample.small_rom /\
  Z.of_nat n * 32
  <= Z.min (Z.of_nat (List.length Sample.small_rom)) (limits TO_ROM).
Proof.
  assert (B : 0 < 32 <= INT_MAX) by (unfold INT_MAX; lia).
  assert (R : 0 <= 0 <= BANK_SIZE) by (unfold BANK_SIZE; lia).
  assert (I : input (Sample.world_of x00 (Some Sample.small_rom))
              = Some Sample.small_rom) by reflexivity.
  split; [exact B|]. split; [exact R|]. split; [exact I|].
  exact (write_session_calls _ TO_ROM 0 32 Sample.small_rom B R I).
Defined.



(** X18: a write session ends in one of three ways. It completes; or it
    returns 1 after a device write that failed, which is its last call, for
    the block at the final offset; or it ends with [err] before any device
    call, because the file could not be opened or is too large. It never
    reads outside its buffer. *)
Theorem write_session_abort (w : world) (space : space_t) (base blocksize : Z) :
  0 < blocksize <= INT_MAX -> 0 <= base <= BANK_SIZE ->
  let o := fst (Write.session w space base blocksize) in
  let s := snd (Write.session w space base blocksize) in
  (o = Completed \/ o = Returned1 \/ o = Fatal) /\
  (o = Returned1 ->
   write_error w space (base + Write.offset s) = true /\
   last (Spec.writes (Write.trace s)) (space, 0, 0)
   = (space, base + Write.offset s, blocksize)) /\
  (o = Fatal ->
   Write.trace s = [] /\
   (input w = None \/
    exists file, input w = Some file /\
      Write.too_large (Write.file_size file) space = true)).
Proof.
  intros Hbs Hbase o s.
  destruct (input w) as [file|] eqn:Hin.
  2:{ unfold o, s, Write.session. rewrite Hin. cbn [fst snd Write.init Write.trace].
      split; [auto|]. split; [discriminate|]. intros _. split; [reflexivity|now left]. }
  destruct (Write.too_large (Write.file_size file) space) eqn:Hsize.
  { unfold o, s, Write.session. rewrite Hin, Hsize.
    cbn [fst snd Write.init Write.trace].
    split; [auto|]. split; [discriminate|]. intros _.
    split; [reflexivity|]. right. now exists file. }
  destruct (write_session_data w space base blocksize file Hbs Hbase Hin Hsize)
    as (k & Hoff & Hcase).
  fold o s in Hoff, Hcase.
  destruct o; try contradiction.
  - split; [auto|]. split; discriminate.
  - destruct Hcase as (Hw & _ & _ & He).
    split; [auto|]. split; [|discriminate]. intros _. split; [assumption|].
    rewrite Hw, block_calls_S, last_last, Hoff. reflexivity.
Qed.

Lemma write_session_abort_witness :
  0 < 32 <= INT_MAX /\ 0 <= 0 <= BANK_SIZE /\
  let w := mkWorld true true (fun _ _ => x00) (fun _ _ => false)
             (fun _ a => a =? 0) true (fun _ => false) (Some Sample.small_rom) in
  let o := fst (Write.session w TO_ROM 0 32) in
  let s := snd (Write.session w TO_ROM 0 32) in
  o = Returned1 /\
  write_error w TO_ROM (0 + Write.offset s) = true /\
  last (Spec.writes (Write.trace s)) (TO_ROM, 0, 0)
  = (TO_ROM, 0 + Write.offset s, 32).
Proof.
  assert (B : 0 < 32 <= INT_MAX) by (unfold INT_MAX; lia).
  assert (R : 0 <= 0 <= BANK_SIZE) by (unfold BANK_SIZE; lia).
  split; [exact B|]. split; [exact R|]. cbv zeta.
  assert (E : fst (Write.session
                     (mkWorld true true (fun _ _ => x00) (fun _ _ => false)
                        (fun _ a => a =? 0) true (fun _ => false)
                        (Some Sample.small_rom))
                     TO_ROM 0 32) = Returned1)
    by (vm_compute; reflexivity).
  split; [exact E|].
  exact (proj1 (proj2 (write_session_abort _ TO_ROM 0 32 B R)) E).
Defined.

(** ** The size test and files of 2 GiB *)

(** A file of 2^31 bytes for ROM space: its length does not fit the int that
    main keeps it in, the size test sees a negative size, and with a device
    that does not fail the whole bank is written. *)
Lemma two_gib_file_written (w : world) (file : list byte) :
  input w = Some file ->
  (forall a, write_error w TO_ROM a = false) ->
  Z.of_nat (List.length file) = 2 ^ 31 ->
  Write.file_size file = - 2 ^ 31 /\
  Write.too_large (Write.file_size file) TO_ROM = false /\
  fst (Write.session w TO_ROM 0 32) = Completed /\
  Write.offset (snd (Write.session w TO_ROM 0 32)) = 4 * 1024 * 1024 /\
  Z.of_nat (List.length (Spec.writes (Write.trace (snd (Write.session w TO_ROM 0 32)))))
  = 131072.
Proof.
  intros Hin Hok Hlen.
  assert (Hsize : Write.file_size file = - 2 ^ 31).
  { unfold Write.file_size. rewrite Hlen. reflexivity. }
  assert (Hpass : Write.too_large (Write.file_size file) TO_ROM = false).
  { rewrite Hsize. reflexivity. }
  assert (Hbs : 0 < 32 <= INT_MAX) by (unfold INT_MAX; lia).
  assert (Hbase : 0 <= 0 <= BANK_SIZE) by (unfold BANK_SIZE; lia).
  destruct (write_session_data w TO_ROM 0 32 file Hbs Hbase Hin Hpass)
    as (k & Hoff & Hcase).
  destruct (fst (Write.session w TO_ROM 0 32)) eqn:Eo; try contradiction.
  - destruct Hcase as (Hw & _ & Hmax).
    rewrite Hlen in Hmax.
    change (32 * (Z.min (2 ^ 31) (limits TO_ROM) / 32)) with 4194304 in Hmax.
    split; [assumption|]. split; [assumption|]. split; [reflexivity|].
    split; [rewrite Hmax; reflexivity|].
    rewrite Hw, block_calls_length. lia.
  - destruct Hcase as (_ & _ & _ & He). rewrite Hok in He. discriminate.
Qed.

(** C9 fails on the code for a file of 2 GiB and more. The length of a file
    of 2^31 bytes is above 4 MiB, but [int size = ftell(write_file)] makes
    it -2^31: the test [size > 4*1024*1024] does not hold, [err] is not
    called, and the loop writes 131072 blocks of 32 bytes, the 4 MiB of the
    bank, to the cart. *)
Theorem two_gib_file_passes_size_check :
  let file := repeat x00 (Z.to_nat (2 ^ 31)) in
  let w := Sample.world_of x00 (Some file) in
  4 * 1024 * 1024 < Z.of_nat (List.length file) /\
  Write.file_size file = - 2 ^ 31 /\
  Write.too_large (Write.file_size file) TO_ROM = false /\
  fst (Write.session w TO_ROM 0 32) = Completed /\
  Write.offset (snd (Write.session w TO_ROM 0 32)) = 4 * 1024 * 1024 /\
  Z.of_nat (List.length (Spec.writes (Write.trace (snd (Write.session w TO_ROM 0 32)))))
  = 131072.
Proof.
  cbv zeta.
  assert (Hlen : Z.of_nat (List.length (repeat x00 (Z.to_nat (2 ^ 31)))) = 2 ^ 31).
  { rewrite repeat_length. apply Z2Nat.id. apply Z.pow_nonneg. discriminate. }
  split; [rewrite Hlen; reflexivity|].
  apply two_gib_file_written; [reflexivity|intros a; reflexivity|exact Hlen].
Qed.
